(** * The node graph of the synthesis server: groups, synths and their
      bookkeeping (source/server/group.hpp)

    A shallow embedding of [nova::server_node], [nova::abstract_group],
    [nova::group] and [nova::parallel_group].  Objects live in a store indexed
    by address; a C++ pointer is an optional address, [None] being the null
    pointer.  Member functions become functions on the store that either
    return a value or stop with a [fault]. *)

From stdpp Require Import gmap list.
From Stdlib Require Import ZArith Lia.

(** ** Machine integers *)

(** [std::size_t] on the LP64 targets of the server: arithmetic modulo 2^64. *)
Definition size_t_modulus : Z := 2 ^ 64.
Definition wrap (z : Z) : Z := z mod size_t_modulus.
Definition in_size_t (z : Z) : Prop := (0 ≤ z < size_t_modulus)%Z.

(** ** Objects and the store *)

Definition addr := nat.
Abbreviation ptr := (option addr).

(** One object of the hierarchy server_node <- abstract_group <- group /
    parallel_group.  The first four fields are the state of [server_node]
    behind what group.hpp uses of it ([is_synth()], [parent_], [add_ref()],
    [release()]); the class itself is declared in node_types.hpp, outside the
    sources.  The last four are the members of [abstract_group],
    group.hpp:47-48 and 186, which the source only reaches through a
    [static_cast<abstract_group*>] guarded by [is_synth()] / [is_group()]. *)
Record node := Node {
  node_id : Z;
  synth_ : bool;
  parent_ : ptr;
  use_count_ : Z;
  child_nodes : list addr;
  is_parallel_ : bool;
  child_synths_ : Z;
  child_groups_ : Z
}.

Abbreviation heap := (gmap addr node).

Definition with_parent (p : ptr) (n : node) : node :=
  Node (node_id n) (synth_ n) p (use_count_ n)
       (child_nodes n) (is_parallel_ n) (child_synths_ n) (child_groups_ n).
Definition with_use_count (c : Z) (n : node) : node :=
  Node (node_id n) (synth_ n) (parent_ n) c
       (child_nodes n) (is_parallel_ n) (child_synths_ n) (child_groups_ n).
Definition with_child_nodes (l : list addr) (n : node) : node :=
  Node (node_id n) (synth_ n) (parent_ n) (use_count_ n)
       l (is_parallel_ n) (child_synths_ n) (child_groups_ n).
Definition with_child_synths (c : Z) (n : node) : node :=
  Node (node_id n) (synth_ n) (parent_ n) (use_count_ n)
       (child_nodes n) (is_parallel_ n) c (child_groups_ n).
Definition with_child_groups (c : Z) (n : node) : node :=
  Node (node_id n) (synth_ n) (parent_ n) (use_count_ n)
       (child_nodes n) (is_parallel_ n) (child_synths_ n) c.

(** ** Outcomes *)

(** How a call can stop without a value.  [AssertionFailed] is the only
    failure the source detects itself (an [assert] that evaluates to false);
    the two pointer faults are undefined behaviour in C++; [OutOfFuel] bounds
    the recursion of the model. *)
Inductive fault :=
  | AssertionFailed
  | NullDereference
  | DanglingPointer
  | OutOfFuel.

Inductive result (A : Type) :=
  | Ok (a : A)
  | Fail (f : fault).
Arguments Ok {A} a.
Arguments Fail {A} f.

#[global] Instance fault_eq_dec : EqDecision fault.
Proof. solve_decision. Defined.

#[global] Instance result_ret : MRet result := λ A a, Ok a.
#[global] Instance result_bind : MBind result := λ A B f m,
  match m with
  | Ok a => f a
  | Fail e => Fail e
  end.

(** A failure that the code itself detected and reported. *)
Definition checked (f : fault) : bool :=
  match f with
  | AssertionFailed => true
  | _ => false
  end.

Definition assert (b : bool) : result unit :=
  if b then Ok tt else Fail AssertionFailed.

(** Reading the object behind a non-null pointer. *)
Definition load (h : heap) (a : addr) : result node :=
  match h !! a with
  | Some n => Ok n
  | None => Fail DanglingPointer
  end.

Definition deref (p : ptr) : result addr :=
  match p with
  | Some a => Ok a
  | None => Fail NullDereference
  end.

(** In-place update of the object at [a]. *)
Definition update (f : node → node) (a : addr) (h : heap) : result heap :=
  match h !! a with
  | Some _ => Ok (alter f a h)
  | None => Fail DanglingPointer
  end.

(** The iterator loop [for (it = l.begin(); it != l.end(); ++it)] with the
    loop body applied to each element of a fixed sequence of addresses,
    threading the store. *)
Fixpoint for_each (body : addr → heap → result heap) (l : list addr) (h : heap)
  : result heap :=
  match l with
  | [] => Ok h
  | c :: l' => h' ← body c h; for_each body l' h'
  end.

(** ** server_node *)

Definition is_synth (h : heap) (a : addr) : result bool :=
  n ← load h a; Ok (synth_ n).

(** Modelled from the spec: the reference counting of [server_node]
    (node_types.hpp is not part of the sources).  "Node's reference count is
    incremented". *)
Definition add_ref (this : addr) (h : heap) : result heap :=
  update (λ n, with_use_count (use_count_ n + 1) n) this h.

(** Modelled from the spec: [server_node::release] (node_types.hpp is not part
    of the sources).  "Releases the ownership reference ...; if this drops the
    reference count to zero, the node's storage is returned to the pool": the
    object leaves the store.  What the destructor of a group does to the
    children of the destroyed group is not described; the model leaves them
    as they are. *)
Definition release (this : addr) (h : heap) : result heap :=
  n ← load h this;
  let c := (use_count_ n - 1)%Z in
  if (c =? 0)%Z then Ok (delete this h)
  else Ok (<[this := with_use_count c n]> h).

(** [--parent->child_synths_] / [--parent->child_groups_], and the increments. *)
Definition decrement_count (synth : bool) (g : node) : node :=
  if synth then with_child_synths (wrap (child_synths_ g - 1)) g
  else with_child_groups (wrap (child_groups_ g - 1)) g.
Definition increment_count (synth : bool) (g : node) : node :=
  if synth then with_child_synths (wrap (child_synths_ g + 1)) g
  else with_child_groups (wrap (child_groups_ g + 1)) g.

(** [server_node::clear_parent], group.hpp:190. *)
Definition clear_parent (this : addr) (h : heap) : result heap :=
  n ← load h this;
  p ← deref (parent_ n);
  h ← update (decrement_count (synth_ n)) p h;
  h ← update (with_parent None) this h;
  release this h.

(** [server_node::set_parent], group.hpp:201. *)
Definition set_parent (this : addr) (parent : ptr) (h : heap) : result heap :=
  h ← add_ref this h;
  n ← load h this;
  _ ← assert (bool_decide (parent_ n = None));
  h ← update (with_parent parent) this h;
  p ← deref parent;
  update (increment_count (synth_ n)) p h.

(** ** The intrusive child list

    [server_node_list] is a doubly linked intrusive list: every node carries
    one hook, so a node occurs in a list at most once and the neighbours of a
    node are found from the node itself.  The list is modelled by the sequence
    of its elements. *)

(** [list.erase(s_iterator_to(c))]. *)
Fixpoint erase (c : addr) (l : list addr) : list addr :=
  match l with
  | [] => []
  | x :: l' => if decide (x = c) then l' else x :: erase c l'
  end.

(** [++s_iterator_to(c)], with [None] for [end()]. *)
Fixpoint successor_in (c : addr) (l : list addr) : ptr :=
  match l with
  | [] => None
  | x :: l' => if decide (x = c) then head l' else successor_in c l'
  end.

(** [--s_iterator_to(c)], with [None] when the iterator is [begin()]. *)
Definition predecessor_in (c : addr) (l : list addr) : ptr :=
  successor_in c (reverse l).

(** ** abstract_group *)

(** [abstract_group::empty], group.hpp:87. *)
Definition empty_group (g : node) : bool :=
  match child_nodes g with
  | [] => true
  | _ => false
  end.

(** [abstract_group::child_count], group.hpp:107. *)
Definition child_count (g : node) : Z :=
  wrap (child_synths_ g + child_groups_ g).

(** [server_node_list::size()], a [std::size_t]. *)
Definition list_size (l : list addr) : Z := wrap (Z.of_nat (length l)).

(** Modelled from the spec: [abstract_group::has_child] is declared at
    group.hpp:85 and defined outside the sources; "query child membership". *)
Definition has_child (g : node) (c : addr) : bool :=
  bool_decide (c ∈ child_nodes g).

(** [abstract_group::next_node], group.hpp:139. *)
Definition abstract_group_next_node (this node : addr) (h : heap) : result ptr :=
  g ← load h this;
  _ ← assert (has_child g node);
  Ok (successor_in node (child_nodes g)).

(** [abstract_group::previous_node], group.hpp:149. *)
Definition abstract_group_previous_node (this node : addr) (h : heap) : result ptr :=
  g ← load h this;
  _ ← assert (has_child g node);
  Ok (predecessor_in node (child_nodes g)).

(** [server_node::previous_node], group.hpp:215. *)
Definition previous_node (this : addr) (h : heap) : result ptr :=
  n ← load h this;
  p ← deref (parent_ n);
  abstract_group_previous_node p this h.

(** [server_node::next_node], group.hpp:220. *)
Definition next_node (this : addr) (h : heap) : result ptr :=
  n ← load h this;
  p ← deref (parent_ n);
  abstract_group_next_node p this h.

(** [child_nodes.erase_and_dispose(s_iterator_to(c), disposer)]: the element
    is unlinked from the list of [this], then handed to the disposer. *)
Definition erase_and_dispose (disposer : addr → heap → result heap)
    (this c : addr) (h : heap) : result heap :=
  h ← update (λ g, with_child_nodes (erase c (child_nodes g)) g) this h;
  disposer c h.

(** [child_nodes.clear_and_dispose(disposer)]: every element is unlinked and
    handed to the disposer, then the list header is reset. *)
Definition clear_and_dispose (disposer : addr → heap → result heap)
    (this : addr) (h : heap) : result heap :=
  g ← load h this;
  h ← for_each (erase_and_dispose disposer this) (child_nodes g) h;
  update (with_child_nodes []) this h.

(** [child_nodes.remove_and_dispose_if(pred, disposer)]: walking the list,
    an element that satisfies the predicate is erased and disposed. *)
Definition remove_and_dispose_if (pred : heap → addr → result bool)
    (disposer : addr → heap → result heap) (this : addr) (h : heap)
  : result heap :=
  g ← load h this;
  for_each (λ c h,
      b ← pred h c;
      if b : bool then erase_and_dispose disposer this c h else Ok h)
    (child_nodes g) h.

(** [abstract_group::free_children], group.hpp:159. *)
Definition free_children (this : addr) (h : heap) : result heap :=
  h ← clear_and_dispose clear_parent this h;
  g ← load h this;
  _ ← assert (child_synths_ g =? 0)%Z;
  _ ← assert (child_groups_ g =? 0)%Z;
  Ok h.

(** [abstract_group::free_synths_deep], group.hpp:166.  After the removal the
    list holds groups only and the nested calls unlink nothing but synths, so
    the iterator loop runs over the list as it is when the loop starts. *)
Fixpoint free_synths_deep (fuel : nat) (this : addr) (h : heap) : result heap :=
  match fuel with
  | O => Fail OutOfFuel
  | S fuel =>
      h ← remove_and_dispose_if is_synth clear_parent this h;
      g ← load h this;
      h ← for_each (free_synths_deep fuel) (child_nodes g) h;
      g ← load h this;
      _ ← assert (child_synths_ g =? 0)%Z;
      Ok h
  end.

(** [abstract_group::has_synth_children], group.hpp:93. *)
Fixpoint has_synth_children (fuel : nat) (h : heap) (this : addr) : result bool :=
  match fuel with
  | O => Fail OutOfFuel
  | S fuel =>
      g ← load h this;
      (fix scan (l : list addr) : result bool :=
         match l with
         | [] => Ok false
         | c :: l' =>
             n ← load h c;
             if synth_ n then Ok true
             else
               b ← has_synth_children fuel h c;
               if b : bool then Ok true else scan l'
         end) (child_nodes g)
  end.

(** ** group and parallel_group: the tail count *)

(** The reverse-iterator loop of [group::tail_nodes], group.hpp:252, with the
    virtual call [tail_group->tail_nodes()] as a parameter. *)
Fixpoint scan_tail (tail_nodes : addr → result Z) (h : heap) (l : list addr)
  : result Z :=
  match l with
  | [] => Ok 0%Z
  | tail :: l' =>
      t ← load h tail;
      if synth_ t then Ok 1%Z
      else if negb (empty_group t) then tail_nodes tail
      else scan_tail tail_nodes h l'
  end.

(** [group::tail_nodes], group.hpp:247. *)
Definition group_tail_nodes (tail_nodes : addr → result Z) (h : heap) (g : node)
  : result Z :=
  if empty_group g then Ok 0%Z
  else scan_tail tail_nodes h (reverse (child_nodes g)).

(** Modelled from the spec: the sum in [parallel_group::tail_nodes].  "For a
    Parallel Group it is the sum of tail counts over all direct children"; a
    synth is its own single tail item.  The counts are C++ [int]s; the model
    keeps them in Z. *)
Fixpoint sum_tails (tail_nodes : addr → result Z) (h : heap) (l : list addr)
  : result Z :=
  match l with
  | [] => Ok 0%Z
  | c :: l' =>
      n ← load h c;
      v ← (if synth_ n then Ok 1%Z else tail_nodes c);
      s ← sum_tails tail_nodes h l';
      Ok (v + s)%Z
  end.

(** Modelled from the spec: [parallel_group::tail_nodes] is declared at
    group.hpp:284 and defined outside the sources. *)
Definition parallel_group_tail_nodes (tail_nodes : addr → result Z) (h : heap)
    (g : node) : result Z :=
  sum_tails tail_nodes h (child_nodes g).

(** The virtual [abstract_group::tail_nodes], group.hpp:71: the constructors
    of [group] and [parallel_group] fix [is_parallel_], which therefore tells
    the dynamic class. *)
Fixpoint tail_nodes (fuel : nat) (h : heap) (this : addr) : result Z :=
  match fuel with
  | O => Fail OutOfFuel
  | S fuel =>
      g ← load h this;
      if is_parallel_ g then parallel_group_tail_nodes (tail_nodes fuel h) h g
      else group_tail_nodes (tail_nodes fuel h) h g
  end.

(** The tail count of any node: one for a synth, [tail_nodes()] for a group. *)
Definition tail_count (fuel : nat) (h : heap) (c : addr) : result Z :=
  n ← load h c;
  if synth_ n then Ok 1%Z else tail_nodes fuel h c.

(** ** Construction *)

(** [group::group(node_id)] and [parallel_group::parallel_group(node_id)]
    through [abstract_group::abstract_group], group.hpp:50: a group, no
    children, both counts zero.  The [server_node] constructor is outside the
    sources; [handles] is the number of references held by the control layer
    when the object enters the store, and the parent pointer starts null. *)
Definition new_group (id : Z) (is_parallel : bool) (handles : Z) : node :=
  Node id false None handles [] is_parallel 0 0.

(** Modelled from the spec: a synth ([class synth] is only forward-declared
    in group.hpp), "a leaf node performing signal processing"; only its
    [server_node] part matters here. *)
Definition new_synth (id : Z) (handles : Z) : node :=
  Node id true None handles [] false 0 0.

(** ** Child management *)

(** Modelled from the spec: the positions of [add_child] ([node_position] and
    [node_position_constraint] are declared outside the sources).  "Inserts at
    head, tail, before/after a named sibling, or at a numeric index". *)
Inductive node_position :=
  | at_head
  | at_tail
  | before (sibling : addr)
  | after (sibling : addr)
  | at_index (i : nat).

(** Modelled from the spec: insertion "before ... a named sibling". *)
Fixpoint insert_before (s c : addr) (l : list addr) : list addr :=
  match l with
  | [] => []
  | x :: l' => if decide (x = s) then c :: x :: l' else x :: insert_before s c l'
  end.

(** Modelled from the spec: insertion "after a named sibling". *)
Fixpoint insert_after (s c : addr) (l : list addr) : list addr :=
  match l with
  | [] => []
  | x :: l' => if decide (x = s) then x :: c :: l' else x :: insert_after s c l'
  end.

(** Modelled from the spec: the child list after [add_child].  "Fails with
    InvalidPosition if a referenced sibling is not actually a child of this
    group." *)
Definition insert_at (pos : node_position) (c : addr) (l : list addr)
  : result (list addr) :=
  match pos with
  | at_head => Ok (c :: l)
  | at_tail => Ok (l ++ [c])
  | before s => _ ← assert (bool_decide (s ∈ l)); Ok (insert_before s c l)
  | after s => _ ← assert (bool_decide (s ∈ l)); Ok (insert_after s c l)
  | at_index i => Ok (take i l ++ c :: drop i l)
  end.

(** Modelled from the spec: [abstract_group::add_child] is declared at
    group.hpp:81-83 and defined outside the sources.  "Inserts at [the
    position] ...  Calls attach." *)
Definition add_child (this node : addr) (pos : node_position) (h : heap)
  : result heap :=
  g ← load h this;
  l ← insert_at pos node (child_nodes g);
  h ← update (with_child_nodes l) this h;
  set_parent node (Some this) h.

(** Modelled from the spec: [abstract_group::remove_child] is declared at
    group.hpp:179 and defined outside the sources.  "Fails with NotAChild if
    the node is not currently a direct child; otherwise detaches it." *)
Definition remove_child (this node : addr) (h : heap) : result heap :=
  g ← load h this;
  _ ← assert (has_child g node);
  erase_and_dispose clear_parent this node h.

(** A sequence of attach and detach requests, run in order: an attach links
    the node into the child list and calls [set_parent], a detach unlinks it
    and calls [clear_parent]. *)
Inductive request :=
  | attach (parent node : addr) (pos : node_position)
  | detach (parent node : addr).

Definition perform (r : request) (h : heap) : result heap :=
  match r with
  | attach g c pos => add_child g c pos h
  | detach g c => remove_child g c h
  end.

Fixpoint run (rs : list request) (h : heap) : result heap :=
  match rs with
  | [] => Ok h
  | r :: rs' => h' ← perform r h; run rs' h'
  end.

(** ** A sample graph

    Group 1 holds synth 10 and group 2; group 2 holds the empty group 3.
    The synths 11 and 12, the parallel group 4 and the group 5 are not
    attached. *)
Definition sample_nodes : heap :=
  <[1 := new_group 1 false 1]>
  (<[2 := new_group 2 false 0]>
  (<[3 := new_group 3 false 0]>
  (<[4 := new_group 4 true 1]>
  (<[5 := new_group 5 false 0]>
  (<[10 := new_synth 10 0]>
  (<[11 := new_synth 11 0]>
  (<[12 := new_synth 12 1]> ∅))))))).

Definition sample_graph : result heap :=
  run [attach 1 10 at_head; attach 1 2 at_tail; attach 2 3 at_head] sample_nodes.

Definition sample_heap : heap :=
  match sample_graph with
  | Ok h => h
  | Fail _ => ∅
  end.

(** The sample graph with synth 11, the empty group 5 and synth 12 attached
    to the parallel group 4. *)
Definition parallel_requests : list request :=
  [attach 4 11 at_head; attach 4 12 at_tail; attach 4 5 (after 11)].

Definition parallel_heap : heap :=
  match run parallel_requests sample_heap with
  | Ok h => h
  | Fail _ => ∅
  end.

(** [d] is reachable from [a] by following child lists. *)
Inductive descendant (h : heap) : addr → addr → Prop :=
  | descendant_child a n c :
      h !! a = Some n → c ∈ child_nodes n → descendant h a c
  | descendant_step a n c d :
      h !! a = Some n → c ∈ child_nodes n → descendant h c d →
      descendant h a d.


(** ** The tail count in the words of the specification *)

(** "Empty nested child groups are skipped". *)
Definition skipped (h : heap) (c : addr) : bool :=
  match h !! c with
  | Some n => negb (synth_ n) && empty_group n
  | None => false
  end.

(** "An entirely empty group yields 0; otherwise children are scanned from the
    last toward the first, a trailing synth yields 1 immediately, empty nested
    child groups are skipped, and the first non-empty child group encountered
    is recursed into, its tail count being returned; if the scan exhausts all
    children without finding a synth or a non-empty group, the result is 0."
    The child that decides is the last one that is not skipped. *)
Fixpoint tail_nodes_spec (fuel : nat) (h : heap) (this : addr) : result Z :=
  match fuel with
  | O => Fail OutOfFuel
  | S fuel =>
      g ← load h this;
      if is_parallel_ g then sum_tails (tail_nodes_spec fuel h) h (child_nodes g)
      else
        match last (filter (λ c, skipped h c = false) (child_nodes g)) with
        | None => Ok 0%Z
        | Some c =>
            n ← load h c;
            if synth_ n then Ok 1%Z else tail_nodes_spec fuel h c
        end
  end.

(** ** Well-formed stores *)

(** Every listed child is a live object. *)
Definition closed (h : heap) : Prop :=
  map_Forall (λ _ g, Forall (λ c, is_Some (h !! c)) (child_nodes g)) h.

(** The child lists are well founded: some rank decreases from every object
    to each of its children, so no object is among its own descendants. *)
Definition ranked (h : heap) (rank : addr → nat) : Prop :=
  map_Forall (λ a g, Forall (λ c, rank c < rank a) (child_nodes g)) h.

(** The number of children of one kind in a child list. *)
Definition kind_count (h : heap) (synth : bool) (l : list addr) : Z :=
  Z.of_nat (length (filter (λ c, synth_ <$> h !! c = Some synth) l)).

(** The representation invariant of a group in the store: each listed child
    is live and points back to the group, no child is listed twice, and the
    two cached counters are the numbers of listed synths and groups (as
    [std::size_t] values). *)
Definition node_consistent (h : heap) (a : addr) (g : node) : Prop :=
  Forall (λ c, parent_ <$> h !! c = Some (Some a)) (child_nodes g) ∧
  NoDup (child_nodes g) ∧
  child_synths_ g = wrap (kind_count h true (child_nodes g)) ∧
  child_groups_ g = wrap (kind_count h false (child_nodes g)).

Definition consistent (h : heap) : Prop := map_Forall (node_consistent h) h.

#[global] Instance closed_dec h : Decision (closed h).
Proof. unfold closed. apply _. Defined.
#[global] Instance ranked_dec h rank : Decision (ranked h rank).
Proof. unfold ranked. apply _. Defined.
#[global] Instance node_consistent_dec h a g : Decision (node_consistent h a g).
Proof. unfold node_consistent. apply _. Defined.
#[global] Instance consistent_dec h : Decision (consistent h).
Proof. unfold consistent. apply _. Defined.

Definition sample_rank (a : addr) : nat :=
  match a with
  | 1 => 3
  | 2 => 2
  | 3 => 1
  | 4 => 1
  | _ => 0
  end.

(** ** Views of the updates

    What a sequence of in-place updates leaves at an address [b]: the update
    of the object at [a] by [f] is seen at [b] as [at_addr a f b]. *)
Definition at_addr (a : addr) (f : node → node) (b : addr) (x : node) : node :=
  if decide (b = a) then f x else x.

Definition referenced (x : node) : node :=
  with_use_count (use_count_ x + 1) x.
Definition released (x : node) : node :=
  with_use_count (use_count_ x - 1) x.

(** The object after [set_parent] to a group other than itself. *)
Definition attached_node (p : addr) (n : node) : node :=
  with_parent (Some p) (with_use_count (use_count_ n + 1) n).

(** The object after [clear_parent], when it survives the release. *)
Definition detached_node (x : node) : node :=
  released (with_parent None x).

(** The effect at [b] of attaching [c], of kind [s], to [this] with the new
    child list [l]. *)
Definition attach_view (this c : addr) (s : bool) (l : list addr)
    (b : addr) (x : node) : node :=
  at_addr this (increment_count s) b
    (at_addr c (with_parent (Some this)) b
       (at_addr c referenced b
          (at_addr this (with_child_nodes l) b x))).

(** The effect at [b] of unlinking [c], of kind [s], from [this] and
    clearing its parent. *)
Definition detach_view (this c : addr) (s : bool) (b : addr) (x : node) : node :=
  at_addr c released b
    (at_addr c (with_parent None) b
       (at_addr this (decrement_count s) b
          (at_addr this (λ g, with_child_nodes (erase c (child_nodes g)) g) b x))).

(** The [server_node] part of an object that no bookkeeping of a group
    touches. *)
Definition same_base (x x' : node) : Prop :=
  node_id x' = node_id x ∧ synth_ x' = synth_ x ∧ parent_ x' = parent_ x ∧
  use_count_ x' = use_count_ x ∧ is_parallel_ x' = is_parallel_ x.

(** What [clear_parent] leaves of a child [n]: nothing when it held the last
    reference, the detached object otherwise. *)
Definition after_clear_parent (n : node) : option node :=
  if decide (use_count_ n = 1%Z) then None else Some (detached_node n).

(** The store after the requests of the sample graph and two more. *)
Definition sample_requests_1 : list request :=
  [attach 1 10 at_head; attach 1 2 at_tail].
Definition sample_requests_2 : list request :=
  [attach 2 3 at_head; attach 1 12 (before 2); detach 1 10].
Definition sample_after_requests : heap :=
  match run (sample_requests_1 ++ sample_requests_2) sample_nodes with
  | Ok h => h
  | Fail _ => ∅
  end.

(** ** Removing the synths below a group *)

Definition group_at (h : heap) (c : addr) : Prop :=
  synth_ <$> h !! c = Some false.
Definition synth_at (h : heap) (c : addr) : Prop :=
  synth_ <$> h !! c = Some true.

#[global] Instance group_at_dec h c : Decision (group_at h c).
Proof. unfold group_at. apply _. Defined.
#[global] Instance synth_at_dec h c : Decision (synth_at h c).
Proof. unfold synth_at. apply _. Defined.

(** The groups among the children [l]. *)
Definition groups_of (h : heap) (l : list addr) : list addr :=
  filter (group_at h) l.

(** A group after its synth children have been unlinked: its list keeps the
    groups, in order, and its synth counter is zero. *)
Definition without_synths (h : heap) (x : node) : node :=
  with_child_synths 0 (with_child_nodes (groups_of h (child_nodes x)) x).

(** [a] is the group [this] or a group below it. *)
Inductive subgroup (h : heap) : addr → addr → Prop :=
  | subgroup_self this : subgroup h this this
  | subgroup_below this x c a :
      h !! this = Some x → synth_ x = false →
      c ∈ child_nodes x → group_at h c →
      subgroup h c a → subgroup h this a.

(** In [h'] the group at [a] has lost its synth children: they are unlinked
    from its list, and each of them has gone through [clear_parent]. *)
Definition cleaned (h h' : heap) (a : addr) : Prop :=
  ∃ x, h !! a = Some x ∧ synth_ x = false ∧
       h' !! a = Some (without_synths h x) ∧
       ∀ s n, s ∈ child_nodes x → h !! s = Some n → synth_ n = true →
              h' !! s = after_clear_parent n.

(** How [free_synths_deep] may change a store: a group is untouched or
    cleaned, a synth is untouched or was attached and went through
    [clear_parent], and no object appears. *)
Record cleaning (h h' : heap) : Prop := {
  cleaning_group : ∀ a x,
    h !! a = Some x → synth_ x = false → h' !! a = Some x ∨ cleaned h h' a;
  cleaning_synth : ∀ s n,
    h !! s = Some n → synth_ n = true →
    h' !! s = Some n ∨ (parent_ n ≠ None ∧ h' !! s = after_clear_parent n);
  cleaning_fresh : ∀ a, h !! a = None → h' !! a = None
}.

(** The state after [free_synths_deep] on [this], against the state [h]
    before it: every group of the subtree has lost its synth children, which
    have gone through [clear_parent]; every group of the store is still there,
    with its group children; the store is consistent. *)
Definition synths_freed (h : heap) (this : addr) (h' : heap) : Prop :=
  (∀ a, subgroup h this a →
     ∃ x x', h !! a = Some x ∧ h' !! a = Some x' ∧
       child_synths_ x' = 0%Z ∧
       child_nodes x' = groups_of h (child_nodes x) ∧
       ∀ s n, s ∈ child_nodes x → h !! s = Some n → synth_ n = true →
              h' !! s = after_clear_parent n) ∧
  (∀ a x, h !! a = Some x → synth_ x = false →
     ∃ x', h' !! a = Some x' ∧ same_base x x' ∧
       child_groups_ x' = child_groups_ x ∧
       groups_of h' (child_nodes x') = groups_of h (child_nodes x)) ∧
  consistent h'.

(** The state after [free_children] on [this], against the state [h] before
    it: the list of the group is empty and its counters are zero; every
    former child has gone through [clear_parent] (the group itself too, had
    it been linked into its own list); nothing else has changed; the store is
    consistent. *)
Definition children_freed (h : heap) (this : addr) (h' : heap) : Prop :=
  ∃ g g',
    h !! this = Some g ∧ h' !! this = Some g' ∧
    child_nodes g' = [] ∧ child_synths_ g' = 0%Z ∧ child_groups_ g' = 0%Z ∧
    (∀ c n, c ∈ child_nodes g → c ≠ this → h !! c = Some n →
       h' !! c = after_clear_parent n) ∧
    parent_ g' = (if decide (this ∈ child_nodes g) then None else parent_ g) ∧
    use_count_ g' = (if decide (this ∈ child_nodes g)
                     then (use_count_ g - 1)%Z else use_count_ g) ∧
    (∀ b, b ≠ this → b ∉ child_nodes g → h' !! b = h !! b) ∧
    consistent h'.

(** ** The deep child count *)

(** The loop of [abstract_group::child_count_deep], group.hpp:118, with the
    recursive call as a parameter: the counts of every child group are added
    to the running [std::size_t] totals. *)
Fixpoint count_groups_deep (child_count_deep : addr → result (Z * Z))
    (h : heap) (l : list addr) (synths groups : Z) : result (Z * Z) :=
  match l with
  | [] => Ok (synths, groups)
  | c :: l' =>
      n ← load h c;
      if negb (synth_ n) then
        r ← child_count_deep c;
        count_groups_deep child_count_deep h l'
          (wrap (synths + r.1)) (wrap (groups + r.2))
      else count_groups_deep child_count_deep h l' synths groups
  end.

(** [abstract_group::child_count_deep], group.hpp:113: the totals start from
    the two cached counters of the group. *)
Fixpoint child_count_deep (fuel : nat) (h : heap) (this : addr)
  : result (Z * Z) :=
  match fuel with
  | O => Fail OutOfFuel
  | S fuel =>
      g ← load h this;
      count_groups_deep (child_count_deep fuel h) h (child_nodes g)
        (child_synths_ g) (child_groups_ g)
  end.

(** The numbers of synths and of groups below a group, found by walking the
    child lists and looking at every node, without the cached counters. *)
Fixpoint walk_children (count : addr → result (Z * Z)) (h : heap)
    (l : list addr) : result (Z * Z) :=
  match l with
  | [] => Ok (0, 0)%Z
  | c :: l' =>
      n ← load h c;
      here ← (if synth_ n then Ok (1, 0)%Z
              else r ← count c; Ok (r.1, 1 + r.2)%Z);
      rest ← walk_children count h l';
      Ok (here.1 + rest.1, here.2 + rest.2)%Z
  end.

Fixpoint count_descendants (fuel : nat) (h : heap) (this : addr)
  : result (Z * Z) :=
  match fuel with
  | O => Fail OutOfFuel
  | S fuel =>
      g ← load h this;
      walk_children (count_descendants fuel h) h (child_nodes g)
  end.

(** ** Synths below a group *)

(** The loop of [abstract_group::has_synth_children], group.hpp:95, with the
    recursive call as a parameter. *)
Fixpoint scan_synths (has_synth_children : addr → result bool) (h : heap)
    (l : list addr) : result bool :=
  match l with
  | [] => Ok false
  | c :: l' =>
      n ← load h c;
      if synth_ n then Ok true
      else
        b ← has_synth_children c;
        if b : bool then Ok true else scan_synths has_synth_children h l'
  end.

(** Some group at or below [this] lists a synth. *)
Definition synth_below (h : heap) (this : addr) : Prop :=
  ∃ a x s, subgroup h this a ∧ h !! a = Some x ∧
           s ∈ child_nodes x ∧ synth_at h s.

(** No group at or below [this] is a parallel group. *)
Definition all_sequential (h : heap) (this : addr) : Prop :=
  ∀ a x, subgroup h this a → h !! a = Some x → is_parallel_ x = false.

(** The sample store after [free_synths_deep] on group 1. *)
Definition sample_without_synths : heap :=
  match free_synths_deep 4 1 sample_after_requests with
  | Ok h => h
  | Fail _ => ∅
  end.
(** * Properties *)

(** Closedness, well-foundedness and consistency of a concrete store are
    decided by computation. *)
Ltac by_computation := apply (bool_decide_unpack _); vm_compute; exact I.

(** ** Unfolding the primitives *)

Lemma load_Some (h : heap) a n : h !! a = Some n → load h a = Ok n.
Proof. unfold load. by intros ->. Qed.

Lemma load_Ok (h : heap) a n : load h a = Ok n → h !! a = Some n.
Proof. unfold load. destruct (h !! a); by intros [= ->]. Qed.

Lemma update_Some f (h : heap) a n :
  h !! a = Some n → update f a h = Ok (<[a := f n]> h).
Proof.
  intros Ha. unfold update. rewrite Ha. f_equal.
  apply map_eq. intros i. destruct (decide (a = i)) as [<-|Hne].
  - by rewrite lookup_alter_eq, lookup_insert_eq, Ha.
  - by rewrite lookup_alter_ne, lookup_insert_ne.
Qed.

Lemma bind_Ok {A B} (m : result A) (k : A → result B) b :
  (m ≫= k) = Ok b → ∃ a, m = Ok a ∧ k a = Ok b.
Proof. destruct m as [a|e]; simpl; [eauto | discriminate]. Qed.

Lemma assert_Ok b : assert b = Ok tt → b = true.
Proof. by destruct b. Qed.

Lemma wrap_wrap_add z k : wrap (wrap z + k) = wrap (z + k).
Proof. unfold wrap. by rewrite Zplus_mod_idemp_l. Qed.

Lemma wrap_wrap_sub z k : wrap (wrap z - k) = wrap (z - k).
Proof. unfold wrap. by rewrite Zminus_mod_idemp_l. Qed.

Lemma wrap_in_size_t z : in_size_t z → wrap z = z.
Proof. unfold wrap, in_size_t. intros. by apply Z.mod_small. Qed.

(** ** Detaching a node that has no parent *)

(** C3, as the code has it: [clear_parent] has no guard for a null parent
    pointer.  On a node without a parent it is not a no-op: the first thing it
    does is to decrement a counter through [parent_], a null pointer, and the
    call stops in that fault before any count or reference count is written. *)
Theorem clear_parent_without_parent (h : heap) (this : addr) (n : node) :
  h !! this = Some n →
  parent_ n = None →
  clear_parent this h = Fail NullDereference.
Proof.
  intros Hn Hp. unfold clear_parent.
  rewrite (load_Some _ _ _ Hn). simpl. by rewrite Hp.
Qed.

Lemma clear_parent_without_parent_witness :
  clear_parent 11 sample_nodes = Fail NullDereference.
Proof.
  apply (clear_parent_without_parent sample_nodes 11 (new_synth 11 0));
    [vm_compute; reflexivity | reflexivity].
Defined.

(** C3 fails on the unattached synth 11 of the sample store: the call is not
    a no-op returning the store unchanged. *)
Lemma clear_parent_not_a_noop :
  sample_nodes !! 11 = Some (new_synth 11 0) ∧
  parent_ (new_synth 11 0) = None ∧
  clear_parent 11 sample_nodes ≠ Ok sample_nodes.
Proof.
  split; [by vm_compute|]. split; [done|].
  by vm_compute.
Qed.

(** ** Attaching *)

Lemma set_parent_unfold (h : heap) this p n :
  h !! this = Some n →
  parent_ n = None →
  set_parent this (Some p) h =
    update (increment_count (synth_ n)) p (<[this := attached_node p n]> h).
Proof.
  intros Hn Hp. unfold set_parent, add_ref.
  rewrite (update_Some _ _ _ _ Hn). simpl.
  rewrite (load_Some _ _ (with_use_count (use_count_ n + 1) n))
    by apply lookup_insert_eq.
  simpl. rewrite Hp. simpl.
  rewrite (update_Some _ _ _ (with_use_count (use_count_ n + 1) n))
    by apply lookup_insert_eq.
  simpl. by rewrite insert_insert_eq.
Qed.

Lemma set_parent_has_parent (h : heap) this parent n :
  h !! this = Some n →
  parent_ n ≠ None →
  set_parent this parent h = Fail AssertionFailed.
Proof.
  intros Hn Hp. unfold set_parent, add_ref.
  rewrite (update_Some _ _ _ _ Hn). simpl.
  rewrite (load_Some _ _ (with_use_count (use_count_ n + 1) n))
    by apply lookup_insert_eq.
  simpl. by rewrite bool_decide_eq_false_2.
Qed.

(** C4, as the code has it: the only check of [set_parent] is the assertion
    that the node has no parent yet; nothing looks at the descendants of the
    node.  With a parent already set the call fails in that assertion.
    Without one, and for any live target group (a descendant of the node or
    the node itself included), the call succeeds: the reference count of the
    node grows by one, its parent pointer is the target, the target's counter
    for the node's kind grows by one modulo 2^64 while its other counter
    stays, and no other object changes. *)
Theorem set_parent_contract (h : heap) (this : addr) (n : node) :
  h !! this = Some n →
  (parent_ n ≠ None →
     ∀ parent, set_parent this parent h = Fail AssertionFailed) ∧
  (parent_ n = None →
     ∀ p g, h !! p = Some g →
       ∃ h' n' g',
         set_parent this (Some p) h = Ok h' ∧
         h' !! this = Some n' ∧ h' !! p = Some g' ∧
         use_count_ n' = (use_count_ n + 1)%Z ∧
         parent_ n' = Some p ∧
         synth_ n' = synth_ n ∧
         child_synths_ g' =
           (if synth_ n then wrap (child_synths_ g + 1) else child_synths_ g) ∧
         child_groups_ g' =
           (if synth_ n then child_groups_ g else wrap (child_groups_ g + 1)) ∧
         child_nodes g' = child_nodes g ∧
         (∀ a, a ≠ this → a ≠ p → h' !! a = h !! a)).
Proof.
  intros Hn. split.
  - intros Hp parent. by apply set_parent_has_parent with n.
  - intros Hp p g Hg. rewrite (set_parent_unfold _ _ _ _ Hn Hp).
    destruct (decide (p = this)) as [->|Hne].
    + assert (g = n) as -> by congruence.
      rewrite (update_Some _ _ _ (attached_node this n))
        by apply lookup_insert_eq.
      rewrite insert_insert_eq.
      set (n' := increment_count (synth_ n) (attached_node this n)).
      exists (<[this := n']> h), n', n'.
      rewrite lookup_insert_eq.
      split_and!; try done; try by (subst n'; destruct (synth_ n) eqn:?).
      intros a Ha _. by rewrite lookup_insert_ne.
    + rewrite (update_Some _ _ _ g) by by rewrite lookup_insert_ne.
      exists (<[p := increment_count (synth_ n) g]>
                (<[this := attached_node p n]> h)),
             (attached_node p n), (increment_count (synth_ n) g).
      rewrite lookup_insert_ne, !lookup_insert_eq by done.
      split_and!; try done; try by destruct (synth_ n) eqn:?.
      intros a Ha Ha'. by rewrite !lookup_insert_ne.
Qed.

Lemma set_parent_contract_witness :
  ∃ h' n' g',
    set_parent 11 (Some 4) sample_nodes = Ok h' ∧
    h' !! 11 = Some n' ∧ h' !! 4 = Some g' ∧
    use_count_ n' = 1%Z ∧ parent_ n' = Some 4 ∧ child_synths_ g' = 1%Z.
Proof.
  assert (sample_nodes !! 11 = Some (new_synth 11 0)) as H11 by by vm_compute.
  assert (sample_nodes !! 4 = Some (new_group 4 true 1)) as H4 by by vm_compute.
  destruct (set_parent_contract sample_nodes 11 (new_synth 11 0) H11) as [_ Hok].
  destruct (Hok eq_refl 4 (new_group 4 true 1) H4) as (h' & n' & g' & H).
  exists h', n', g'.
  destruct H as (E1 & E2 & E3 & E4 & E5 & _ & E7 & _).
  split_and!; done.
Defined.

(** C4 fails on the sample graph: group 3 is a descendant of group 1, and
    attaching group 1 below group 3 is accepted, closing a cycle. *)
Lemma set_parent_accepts_cycle :
  descendant sample_heap 1 3 ∧
  ∃ h' n', set_parent 1 (Some 3) sample_heap = Ok h' ∧
           h' !! 1 = Some n' ∧ parent_ n' = Some 3.
Proof.
  split.
  - eapply (descendant_step _ 1 _ 2); [by vm_compute | |].
    + vm_compute. set_solver.
    + eapply descendant_child; [by vm_compute|]. vm_compute. set_solver.
  - eexists _, _. vm_compute. eauto.
Qed.

(** ** Attach followed by detach *)

Lemma decrement_increment s g :
  in_size_t (child_synths_ g) → in_size_t (child_groups_ g) →
  decrement_count s (increment_count s g) = g.
Proof.
  intros Hs Hg. destruct g as [i sy pa uc cn ip cs cg]. simpl in *.
  destruct s; unfold decrement_count, increment_count,
    with_child_synths, with_child_groups; simpl; f_equal.
  - rewrite wrap_wrap_sub. replace (cs + 1 - 1)%Z with cs by lia.
    by apply wrap_in_size_t.
  - rewrite wrap_wrap_sub. replace (cg + 1 - 1)%Z with cg by lia.
    by apply wrap_in_size_t.
Qed.

Lemma detach_attached p n :
  parent_ n = None →
  with_use_count (use_count_ n + 1 - 1) (with_parent None (attached_node p n)) = n.
Proof.
  intros Hp. destruct n as [i sy pa uc cn ip cs cg]. simpl in *. subst pa.
  unfold attached_node, with_parent, with_use_count. simpl. f_equal. lia.
Qed.

Lemma clear_parent_unfold (h : heap) this n p :
  h !! this = Some n →
  parent_ n = Some p →
  clear_parent this h =
    (h1 ← update (decrement_count (synth_ n)) p h;
     h2 ← update (with_parent None) this h1;
     release this h2).
Proof.
  intros Hn Hp. unfold clear_parent.
  rewrite (load_Some _ _ _ Hn). simpl. by rewrite Hp.
Qed.

Lemma release_unfold (h : heap) this n :
  h !! this = Some n →
  release this h =
    Ok (if decide (use_count_ n = 1%Z) then delete this h
        else <[this := with_use_count (use_count_ n - 1) n]> h).
Proof.
  intros Hn. unfold release. rewrite (load_Some _ _ _ Hn). simpl.
  destruct (decide (use_count_ n = 1%Z)) as [->|Hne]; [done|].
  by rewrite (proj2 (Z.eqb_neq _ _)) by lia.
Qed.

(** C9, as the code has it: for a node without a parent and a live group
    whose counters are in range, [set_parent] followed by [clear_parent]
    succeeds and gives back the store it started from, provided the node's
    reference count was not zero: parent pointer, reference count and both
    counters of the group are as before.  When the count was zero, the
    reference taken by the attach is the only one, the detach releases it and
    the node leaves the store; everything else is as before. *)
Theorem set_parent_clear_parent (h : heap) (this p : addr) (n g : node) :
  h !! this = Some n →
  parent_ n = None →
  h !! p = Some g →
  in_size_t (child_synths_ g) →
  in_size_t (child_groups_ g) →
  ∃ h1, set_parent this (Some p) h = Ok h1 ∧
        clear_parent this h1 =
          Ok (if decide (use_count_ n = 0%Z) then delete this h else h).
Proof.
  intros Hn Hp Hg Hcs Hcg.
  rewrite (set_parent_unfold _ _ _ _ Hn Hp).
  destruct (decide (p = this)) as [->|Hne].
  - assert (g = n) as -> by congruence.
    set (n1 := increment_count (synth_ n) (attached_node this n)).
    exists (<[this := n1]> h). split.
    { rewrite (update_Some _ _ _ (attached_node this n))
        by apply lookup_insert_eq.
      by rewrite insert_insert_eq. }
    assert (parent_ n1 = Some this) as Hp1 by (subst n1; by destruct (synth_ n)).
    assert (synth_ n1 = synth_ n) as Hs1
      by (subst n1; by destruct (synth_ n) eqn:?).
    rewrite (clear_parent_unfold _ _ n1 this) by (done || apply lookup_insert_eq).
    rewrite Hs1.
    rewrite (update_Some _ _ _ n1) by apply lookup_insert_eq. simpl.
    rewrite insert_insert_eq.
    rewrite (update_Some _ _ _ (decrement_count (synth_ n) n1))
      by apply lookup_insert_eq.
    simpl. rewrite insert_insert_eq.
    rewrite (release_unfold _ _ _ (lookup_insert_eq _ _ _)).
    subst n1. rewrite decrement_increment by done.
    replace (use_count_ (with_parent None (attached_node this n)))
      with (use_count_ n + 1)%Z by done.
    f_equal.
    destruct (decide (use_count_ n = 0%Z)) as [Hz|Hnz].
    + rewrite decide_True by lia. by rewrite delete_insert_eq.
    + rewrite decide_False by lia. rewrite insert_insert_eq.
      rewrite detach_attached by done. by rewrite insert_id.
  - set (h1 := <[p := increment_count (synth_ n) g]>
                 (<[this := attached_node p n]> h)).
    exists h1. split.
    { by rewrite (update_Some _ _ _ g) by by rewrite lookup_insert_ne. }
    assert (h1 !! this = Some (attached_node p n)) as Hthis.
    { subst h1. by rewrite lookup_insert_ne, lookup_insert_eq. }
    rewrite (clear_parent_unfold _ _ _ p Hthis) by done.
    rewrite (update_Some _ _ _ (increment_count (synth_ n) g))
      by (subst h1; apply lookup_insert_eq).
    simpl. rewrite decrement_increment by done.
    rewrite (update_Some _ _ _ (attached_node p n))
      by (by rewrite lookup_insert_ne).
    simpl.
    rewrite (release_unfold _ _ _ (lookup_insert_eq _ _ _)).
    replace (use_count_ (with_parent None (attached_node p n)))
      with (use_count_ n + 1)%Z by done.
    f_equal.
    assert (<[p := g]> h = h) as Hpid by by apply insert_id.
    destruct (decide (use_count_ n = 0%Z)) as [Hz|Hnz].
    + rewrite decide_True by lia. rewrite delete_insert_eq. subst h1.
      rewrite insert_insert_eq.
      rewrite delete_insert_ne by done. rewrite delete_insert_eq.
      rewrite <- delete_insert_ne by done. by rewrite Hpid.
    + rewrite decide_False by lia. rewrite insert_insert_eq.
      subst h1. rewrite insert_insert_eq.
      rewrite detach_attached by done.
      rewrite (insert_insert_ne _ this p) by done.
      rewrite insert_insert_eq, (insert_id _ _ _ Hn). done.
Qed.

Lemma set_parent_clear_parent_witness :
  ∃ h1, set_parent 4 (Some 1) sample_nodes = Ok h1 ∧
        clear_parent 4 h1 = Ok sample_nodes.
Proof.
  apply (set_parent_clear_parent sample_nodes 4 1
           (new_group 4 true 1) (new_group 1 false 1));
    try (by vm_compute); split; by vm_compute.
Defined.

(** C9 fails on the unattached synth 11 of the sample store, which nobody
    else holds: after attaching it to group 4 and detaching it again the
    synth is gone, so it has neither a parent pointer nor a reference count. *)
Lemma set_parent_clear_parent_frees :
  sample_nodes !! 11 = Some (new_synth 11 0) ∧
  sample_nodes !! 4 = Some (new_group 4 true 1) ∧
  ∃ h1 h2, set_parent 11 (Some 4) sample_nodes = Ok h1 ∧
           clear_parent 11 h1 = Ok h2 ∧
           h2 !! 11 = None.
Proof.
  split; [by vm_compute|]. split; [by vm_compute|].
  eexists _, _. split; [by vm_compute|]. split; by vm_compute.
Qed.

(** ** Siblings *)

Lemma successor_in_middle c l1 l2 :
  c ∉ l1 → successor_in c (l1 ++ c :: l2) = head l2.
Proof.
  induction l1 as [|x l1 IH]; intros Hc; simpl.
  - by rewrite decide_True.
  - rewrite decide_False by set_solver. apply IH. set_solver.
Qed.

Lemma predecessor_in_middle c l1 l2 :
  c ∉ l2 → predecessor_in c (l1 ++ c :: l2) = last l1.
Proof.
  intros Hc. unfold predecessor_in.
  rewrite reverse_app, reverse_cons, <- app_assoc. simpl.
  rewrite successor_in_middle by by rewrite elem_of_reverse.
  apply head_reverse.
Qed.

(** C6, as the code has it: [next_node] and [previous_node] of a node do not
    check for a missing parent; they call through the null parent pointer, a
    fault the code neither detects nor reports.  For a node that has a live
    parent and sits in its child list, between the children [l1] before it
    and [l2] after it, [next_node] is the first of [l2] and [previous_node]
    the last of [l1], each null when there is none. *)
Theorem sibling_contract (h : heap) (this : addr) (n : node) :
  h !! this = Some n →
  (parent_ n = None →
     next_node this h = Fail NullDereference ∧
     previous_node this h = Fail NullDereference) ∧
  (∀ p g l1 l2,
     parent_ n = Some p → h !! p = Some g →
     child_nodes g = l1 ++ this :: l2 → this ∉ l1 → this ∉ l2 →
     next_node this h = Ok (head l2) ∧
     previous_node this h = Ok (last l1)).
Proof.
  intros Hn. split.
  - intros Hp. unfold next_node, previous_node.
    rewrite (load_Some _ _ _ Hn). simpl. by rewrite Hp.
  - intros p g l1 l2 Hp Hg Hl H1 H2.
    unfold next_node, previous_node,
      abstract_group_next_node, abstract_group_previous_node.
    rewrite (load_Some _ _ _ Hn). simpl. rewrite Hp. simpl.
    rewrite (load_Some _ _ _ Hg). simpl.
    assert (has_child g this = true) as ->.
    { unfold has_child. rewrite Hl. apply bool_decide_eq_true. set_solver. }
    simpl. rewrite Hl.
    by rewrite successor_in_middle, predecessor_in_middle.
Qed.

Lemma sibling_contract_witness :
  (next_node 11 sample_heap = Fail NullDereference ∧
   previous_node 11 sample_heap = Fail NullDereference) ∧
  (next_node 10 sample_heap = Ok (Some 2) ∧
   previous_node 10 sample_heap = Ok None).
Proof.
  split.
  - apply (sibling_contract sample_heap 11 (new_synth 11 0)); by vm_compute.
  - assert (sample_heap !! 10 = Some (Node 10 true (Some 1) 1 [] false 0 0))
      as H10 by by vm_compute.
    assert (sample_heap !! 1 = Some (Node 1 false None 1 [10; 2] false 1 1))
      as H1 by by vm_compute.
    apply (proj2 (sibling_contract sample_heap 10 _ H10) 1 _ [] [2] eq_refl H1);
      [done | apply not_elem_of_nil | by intros ?%list_elem_of_singleton].
Defined.

(** C6 fails on the unattached synth 11 of the sample graph: the calls do not
    end in a failure that the code reports, they end in the null dereference. *)
Lemma sibling_lookup_unchecked :
  (∃ n, sample_heap !! 11 = Some n ∧ parent_ n = None) ∧
  ¬ (∃ f, next_node 11 sample_heap = Fail f ∧ checked f = true) ∧
  ¬ (∃ f, previous_node 11 sample_heap = Fail f ∧ checked f = true).
Proof.
  split; [eexists; by vm_compute|].
  split; intros (f & Hf & Hc); vm_compute in Hf;
    injection Hf as <-; discriminate.
Qed.

(** ** A zero tail count above synths *)

Lemma tail_nodes_trailing_group (h : heap) fuel this g l t n :
  h !! this = Some g → is_parallel_ g = false →
  child_nodes g = l ++ [t] →
  h !! t = Some n → synth_ n = false → empty_group n = false →
  tail_nodes (S fuel) h this = tail_nodes fuel h t.
Proof.
  intros Hg Hpar Hl Ht Hs He. simpl. rewrite (load_Some _ _ _ Hg). simpl.
  rewrite Hpar. unfold group_tail_nodes.
  assert (empty_group g = false) as ->
    by (unfold empty_group; rewrite Hl; by destruct l).
  rewrite Hl, reverse_snoc. simpl.
  rewrite (load_Some _ _ _ Ht). simpl. by rewrite Hs, He.
Qed.

(** C10: in the sample graph, a consistent store, the sequential group 1 has
    the synth 10 as a child, and its tail count is zero: the backward scan of
    group 1 reaches the non-empty group 2 first and returns the tail count of
    group 2 ([tail_nodes_trailing_group]), which is zero because the only
    child of group 2 is the empty group 3. *)
Theorem zero_tail_with_synth :
  ∃ (h : heap) (this : addr) (g : node) (fuel : nat),
    consistent h ∧
    h !! this = Some g ∧ synth_ g = false ∧ is_parallel_ g = false ∧
    has_synth_children fuel h this = Ok true ∧
    tail_nodes fuel h this = Ok 0%Z.
Proof.
  exists sample_heap, 1. eexists _, 3.
  split; [by_computation|]. split_and!; by vm_compute.
Qed.

(** ** Reading the well-formedness conditions *)

Lemma closed_child (h : heap) a g c :
  closed h → h !! a = Some g → c ∈ child_nodes g → is_Some (h !! c).
Proof.
  intros Hclosed Hg Hc. specialize (Hclosed _ _ Hg). simpl in Hclosed.
  by eapply Forall_forall in Hclosed.
Qed.

Lemma ranked_child (h : heap) rank a g c :
  ranked h rank → h !! a = Some g → c ∈ child_nodes g → rank c < rank a.
Proof.
  intros Hranked Hg Hc. specialize (Hranked _ _ Hg). simpl in Hranked.
  by eapply Forall_forall in Hranked.
Qed.

(** ** The tail count of a sequential group *)

Lemma scan_tail_decides (f : addr → result Z) (h : heap) (l : list addr) :
  scan_tail f h (reverse l) =
    match last (filter (λ c, skipped h c = false) l) with
    | None => Ok 0%Z
    | Some c => n ← load h c; if synth_ n then Ok 1%Z else f c
    end.
Proof.
  induction l as [|c l IH] using rev_ind; [done|].
  rewrite reverse_snoc, filter_app, filter_cons, filter_nil. simpl.
  destruct (h !! c) as [n|] eqn:Hc.
  - assert (skipped h c = negb (synth_ n) && empty_group n) as Hsk
      by (unfold skipped; by rewrite Hc).
    rewrite (load_Some _ _ _ Hc). simpl.
    destruct (synth_ n) eqn:Hs; simpl in *.
    + rewrite decide_True by done. rewrite last_snoc.
      rewrite (load_Some _ _ _ Hc). simpl. by rewrite Hs.
    + destruct (empty_group n) eqn:He; simpl in *.
      * rewrite decide_False by by rewrite Hsk. by rewrite app_nil_r.
      * rewrite decide_True by done. rewrite last_snoc.
        rewrite (load_Some _ _ _ Hc). simpl. by rewrite Hs.
  - assert (skipped h c = false) as Hsk by (unfold skipped; by rewrite Hc).
    rewrite decide_True by done. rewrite last_snoc.
    unfold load. by rewrite Hc.
Qed.

Lemma sum_tails_ext (f f' : addr → result Z) (h : heap) (l : list addr) :
  (∀ c, c ∈ l → f c = f' c) → sum_tails f h l = sum_tails f' h l.
Proof.
  induction l as [|c l IH]; intros Hf; [done|]. simpl.
  rewrite IH by (intros; apply Hf; set_solver).
  by rewrite (Hf c) by set_solver.
Qed.

Lemma tail_nodes_follows_spec (fuel : nat) (h : heap) (this : addr) :
  tail_nodes fuel h this = tail_nodes_spec fuel h this.
Proof.
  revert this. induction fuel as [|fuel IH]; intros this; [done|]. simpl.
  destruct (load h this) as [g|e]; [simpl|done].
  destruct (is_parallel_ g).
  - unfold parallel_group_tail_nodes. apply sum_tails_ext. auto.
  - unfold group_tail_nodes. rewrite scan_tail_decides.
    destruct (empty_group g) eqn:He.
    + unfold empty_group in He. destruct (child_nodes g); [done|discriminate].
    + destruct (last _) as [c|]; [|done].
      destruct (load h c) as [n|e]; [simpl|done]. by rewrite IH.
Qed.

Lemma scan_tail_total (f : addr → result Z) (h : heap) (l : list addr) :
  (∀ c, c ∈ l → is_Some (h !! c)) →
  (∀ c, c ∈ l → ∃ v, f c = Ok v) →
  ∃ v, scan_tail f h l = Ok v.
Proof.
  induction l as [|c l IH]; intros Hl Hf; simpl; [eauto|].
  destruct (Hl c) as [n Hn]; [set_solver|]. rewrite (load_Some _ _ _ Hn). simpl.
  destruct (synth_ n); [eauto|].
  destruct (empty_group n); simpl.
  - apply IH; intros; [apply Hl | apply Hf]; set_solver.
  - apply Hf. set_solver.
Qed.

Lemma sum_tails_total (f : addr → result Z) (h : heap) (l : list addr) :
  (∀ c, c ∈ l → is_Some (h !! c)) →
  (∀ c, c ∈ l → ∃ v, f c = Ok v) →
  ∃ v, sum_tails f h l = Ok v.
Proof.
  induction l as [|c l IH]; intros Hl Hf; simpl; [eauto|].
  destruct (Hl c) as [n Hn]; [set_solver|]. rewrite (load_Some _ _ _ Hn). simpl.
  destruct IH as [s Hs]; [intros; apply Hl; set_solver
                         |intros; apply Hf; set_solver|].
  rewrite Hs. destruct (synth_ n); simpl; [eauto|].
  destruct (Hf c) as [v Hv]; [set_solver|]. rewrite Hv. simpl. eauto.
Qed.

Section well_founded.
Context (h : heap) (rank : addr → nat).
Hypothesis Hclosed : closed h.
Hypothesis Hranked : ranked h rank.

Lemma tail_nodes_total fuel this :
  rank this < fuel → is_Some (h !! this) →
  ∃ v, tail_nodes fuel h this = Ok v.
Proof.
  revert this. induction fuel as [|fuel IH]; intros this Hlt [g Hg]; [lia|].
  simpl. rewrite (load_Some _ _ _ Hg). simpl.
  assert (∀ c, c ∈ child_nodes g → ∃ v, tail_nodes fuel h c = Ok v) as Hrec.
  { intros c Hc. apply IH; [|exact (closed_child _ _ _ _ Hclosed Hg Hc)].
    pose proof (ranked_child _ _ _ _ _ Hranked Hg Hc). lia. }
  destruct (is_parallel_ g).
  - apply sum_tails_total; [|done].
    intros c Hc. exact (closed_child _ _ _ _ Hclosed Hg Hc).
  - unfold group_tail_nodes. destruct (empty_group g); [eauto|].
    apply scan_tail_total.
    + intros c Hc. rewrite elem_of_reverse in Hc.
      exact (closed_child _ _ _ _ Hclosed Hg Hc).
    + intros c Hc. rewrite elem_of_reverse in Hc. auto.
Qed.
End well_founded.

Lemma scan_tail_mono (f f' : addr → result Z) (h : heap) (l : list addr) v :
  (∀ c w, f c = Ok w → f' c = Ok w) →
  scan_tail f h l = Ok v → scan_tail f' h l = Ok v.
Proof.
  intros Hf. induction l as [|c l IH]; simpl; [done|].
  destruct (load h c) as [n|e]; simpl; [|done].
  destruct (synth_ n); [done|]. destruct (empty_group n); simpl; auto.
Qed.

Lemma sum_tails_mono (f f' : addr → result Z) (h : heap) (l : list addr) v :
  (∀ c w, f c = Ok w → f' c = Ok w) →
  sum_tails f h l = Ok v → sum_tails f' h l = Ok v.
Proof.
  intros Hf. revert v. induction l as [|c l IH]; intros v; simpl; [done|].
  destruct (load h c) as [n|e]; simpl; [|done].
  intros (w & Hw & Hrest)%bind_Ok.
  apply bind_Ok in Hrest as (s & Hs & Hv).
  rewrite (IH _ Hs). simpl.
  destruct (synth_ n).
  - rewrite Hw. simpl. done.
  - rewrite (Hf _ _ Hw). simpl. done.
Qed.

Lemma tail_nodes_mono (h : heap) (fuel fuel' : nat) this v :
  fuel ≤ fuel' → tail_nodes fuel h this = Ok v → tail_nodes fuel' h this = Ok v.
Proof.
  revert fuel' this v. induction fuel as [|fuel IH]; intros fuel' this v Hle;
    [done|].
  destruct fuel' as [|fuel']; [lia|]. simpl.
  destruct (load h this) as [g|e]; simpl; [|done].
  assert (∀ c w, tail_nodes fuel h c = Ok w → tail_nodes fuel' h c = Ok w)
    as Hrec by (intros; apply IH; [lia|done]).
  destruct (is_parallel_ g).
  - by apply sum_tails_mono.
  - unfold group_tail_nodes. destruct (empty_group g); [done|].
    by apply scan_tail_mono.
Qed.

(** C2: the tail count of a sequential group is the value of the algorithm of
    the specification ([tail_nodes_spec]), at every recursion bound; and on a
    closed, well-founded store the call returns, with one value for every
    bound above the rank of the group. *)
Theorem group_tail_nodes_refines (h : heap) (rank : addr → nat)
    (this : addr) (g : node) :
  closed h → ranked h rank →
  h !! this = Some g → synth_ g = false → is_parallel_ g = false →
  (∀ fuel, tail_nodes fuel h this = tail_nodes_spec fuel h this) ∧
  ∃ v, ∀ fuel, rank this < fuel →
    tail_nodes fuel h this = Ok v ∧ tail_nodes_spec fuel h this = Ok v.
Proof.
  intros Hclosed Hranked Hg _ _. split.
  - intros fuel. apply tail_nodes_follows_spec.
  - destruct (tail_nodes_total h rank Hclosed Hranked (S (rank this)) this)
      as [v Hv]; [lia | eauto |].
    exists v. intros fuel Hlt.
    assert (tail_nodes fuel h this = Ok v) as Hfuel
      by (eapply tail_nodes_mono; [|exact Hv]; lia).
    split; [done|]. by rewrite <- tail_nodes_follows_spec.
Qed.

Lemma group_tail_nodes_refines_witness :
  (∀ fuel, tail_nodes fuel sample_heap 1 = tail_nodes_spec fuel sample_heap 1) ∧
  ∃ v, ∀ fuel, 3 < fuel →
    tail_nodes fuel sample_heap 1 = Ok v ∧
    tail_nodes_spec fuel sample_heap 1 = Ok v.
Proof.
  apply (group_tail_nodes_refines sample_heap sample_rank 1
           (Node 1 false None 1 [10; 2] false 1 1)).
  - by_computation.
  - by_computation.
  - vm_compute. reflexivity.
  - reflexivity.
  - reflexivity.
Defined.

(** ** The tail count of a parallel group *)

Lemma sum_tails_sum (f : addr → result Z) (h : heap) (l : list addr) vs :
  Forall2 (λ c v, (n ← load h c; if synth_ n then Ok 1%Z else f c) = Ok v) l vs →
  sum_tails f h l = Ok (foldr Z.add 0%Z vs).
Proof.
  induction 1 as [|c v l vs Hv _ IH]; simpl; [done|].
  rewrite IH. simpl.
  destruct (load h c) as [n|e]; simpl in *; [|done].
  by rewrite Hv.
Qed.

Lemma tail_count_total (h : heap) (rank : addr → nat) c :
  closed h → ranked h rank → is_Some (h !! c) →
  ∃ v, ∀ fuel, rank c < fuel → tail_count fuel h c = Ok v.
Proof.
  intros Hclosed Hranked [n Hn]. unfold tail_count.
  rewrite (load_Some _ _ _ Hn). simpl. destruct (synth_ n); [by exists 1%Z|].
  destruct (tail_nodes_total h rank Hclosed Hranked (S (rank c)) c) as [v Hv];
    [lia | eauto |].
  exists v. intros fuel Hlt. eapply tail_nodes_mono; [|exact Hv]. lia.
Qed.

Lemma tail_count_empty_group (h : heap) fuel c n :
  h !! c = Some n → synth_ n = false → child_nodes n = [] →
  tail_count (S fuel) h c = Ok 0%Z.
Proof.
  intros Hn Hs He. unfold tail_count. rewrite (load_Some _ _ _ Hn). simpl.
  rewrite Hs, (load_Some _ _ _ Hn). simpl.
  unfold parallel_group_tail_nodes, group_tail_nodes, empty_group.
  rewrite He. by destruct (is_parallel_ n).
Qed.

(** C5: on a closed, well-founded store the tail count of a parallel group is
    the sum of the tail counts of its direct children, one value per child
    in list order; a child that is an empty group contributes zero. *)
Theorem parallel_tail_nodes_sum (h : heap) (rank : addr → nat)
    (this : addr) (g : node) :
  closed h → ranked h rank →
  h !! this = Some g → synth_ g = false → is_parallel_ g = true →
  ∃ vs : list Z,
    Forall2 (λ c v, ∀ fuel, rank c < fuel → tail_count fuel h c = Ok v)
            (child_nodes g) vs ∧
    (∀ fuel, rank this < fuel →
       tail_nodes fuel h this = Ok (foldr Z.add 0%Z vs)) ∧
    (∀ i c n, child_nodes g !! i = Some c → h !! c = Some n →
       synth_ n = false → child_nodes n = [] → vs !! i = Some 0%Z).
Proof.
  intros Hclosed Hranked Hg _ Hpar.
  assert (∃ vs, Forall2 (λ c v, ∀ fuel, rank c < fuel →
                           tail_count fuel h c = Ok v) (child_nodes g) vs)
    as [vs Hvs].
  { assert (Forall (λ c, is_Some (h !! c)) (child_nodes g)) as Hlive
      by (apply Forall_forall; intros c Hc;
          exact (closed_child _ _ _ _ Hclosed Hg Hc)).
    induction Hlive as [|c l Hc _ [vs IH]]; [by exists []|].
    destruct (tail_count_total h rank c Hclosed Hranked Hc) as [v Hv].
    exists (v :: vs). by constructor. }
  exists vs. split_and!; [done| |].
  - intros [|fuel] Hlt; [lia|]. simpl.
    rewrite (load_Some _ _ _ Hg). simpl. rewrite Hpar.
    unfold parallel_group_tail_nodes. apply sum_tails_sum.
    assert (∀ c, c ∈ child_nodes g → rank c < fuel) as Hfuel.
    { intros c Hc. pose proof (ranked_child _ _ _ _ _ Hranked Hg Hc). lia. }
    revert Hfuel. induction Hvs as [|c v l vs' Hv _ IH]; intros Hfuel;
      constructor.
    + apply (Hv fuel). apply Hfuel. set_solver.
    + apply IH. intros. apply Hfuel. set_solver.
  - intros i c n Hi Hn Hs He.
    destruct (Forall2_lookup_l _ _ _ _ _ Hvs Hi) as (v & Hv & Hcount).
    rewrite Hv. f_equal.
    specialize (Hcount (S (rank c)) ltac:(lia)).
    rewrite (tail_count_empty_group _ _ _ _ Hn Hs He) in Hcount. congruence.
Qed.

Lemma parallel_tail_nodes_sum_witness :
  ∃ vs : list Z,
    Forall2 (λ c v, ∀ fuel, sample_rank c < fuel →
                      tail_count fuel parallel_heap c = Ok v) [11; 5; 12] vs ∧
    (∀ fuel, sample_rank 4 < fuel →
       tail_nodes fuel parallel_heap 4 = Ok (foldr Z.add 0%Z vs)) ∧
    (∀ i c n, [11; 5; 12] !! i = Some c → parallel_heap !! c = Some n →
       synth_ n = false → child_nodes n = [] → vs !! i = Some 0%Z).
Proof.
  apply (parallel_tail_nodes_sum parallel_heap sample_rank 4
           (Node 4 false None 1 [11; 5; 12] true 2 1)).
  - by_computation.
  - by_computation.
  - vm_compute. reflexivity.
  - reflexivity.
  - reflexivity.
Defined.

Example parallel_heap_tail_nodes : tail_nodes 2 parallel_heap 4 = Ok 2%Z.
Proof. by vm_compute. Qed.

(** ** Views of the primitives *)

Lemma at_addr_eq a f x : at_addr a f a x = f x.
Proof. unfold at_addr. by rewrite decide_True. Qed.

Lemma at_addr_ne a f b x : b ≠ a → at_addr a f b x = x.
Proof. intros. unfold at_addr. by rewrite decide_False. Qed.

Lemma update_view f a (h : heap) :
  is_Some (h !! a) →
  ∃ h', update f a h = Ok h' ∧ ∀ b, h' !! b = at_addr a f b <$> h !! b.
Proof.
  intros [n Hn]. exists (alter f a h). split.
  - unfold update. by rewrite Hn.
  - intros b. rewrite lookup_alter.
    destruct (decide (a = b)) as [->|Hne].
    + rewrite Hn. simpl. by rewrite at_addr_eq.
    + destruct (h !! b); simpl; [|done]. by rewrite at_addr_ne.
Qed.

Lemma update_Ok_live f a (h h' : heap) :
  update f a h = Ok h' → is_Some (h !! a).
Proof. unfold update. destruct (h !! a); [eauto|discriminate]. Qed.

Lemma release_view a (h : heap) n :
  h !! a = Some n →
  ∃ h', release a h = Ok h' ∧
    ∀ b, h' !! b = if decide (b = a ∧ use_count_ n = 1%Z) then None
                   else at_addr a released b <$> h !! b.
Proof.
  intros Hn. rewrite (release_unfold _ _ _ Hn). eexists. split; [done|].
  intros b.
  destruct (decide (use_count_ n = 1%Z)) as [Hu|Hu].
  - rewrite lookup_delete. destruct (decide (a = b)) as [->|Hne].
    + by rewrite decide_True.
    + rewrite decide_False by (intros [? _]; congruence).
      destruct (h !! b); simpl; [|done]. by rewrite at_addr_ne.
  - rewrite decide_False by (intros [_ ?]; congruence). rewrite lookup_insert.
    destruct (decide (a = b)) as [->|Hne].
    + rewrite Hn. simpl. by rewrite at_addr_eq.
    + destruct (h !! b); simpl; [|done]. by rewrite at_addr_ne.
Qed.

Lemma at_addr_synth a f b x :
  (∀ y, synth_ (f y) = synth_ y) → synth_ (at_addr a f b x) = synth_ x.
Proof. intros Hf. unfold at_addr. by case_decide. Qed.

Lemma at_addr_use_count a f b x :
  (∀ y, use_count_ (f y) = use_count_ y) →
  use_count_ (at_addr a f b x) = use_count_ x.
Proof. intros Hf. unfold at_addr. by case_decide. Qed.

Lemma at_addr_parent a f b x :
  (∀ y, parent_ (f y) = parent_ y) → parent_ (at_addr a f b x) = parent_ x.
Proof. intros Hf. unfold at_addr. by case_decide. Qed.

Lemma clear_parent_view c p (h : heap) n :
  h !! c = Some n → parent_ n = Some p → is_Some (h !! p) →
  ∃ h', clear_parent c h = Ok h' ∧
    ∀ b, h' !! b =
      if decide (b = c ∧ use_count_ n = 1%Z) then None
      else (λ x, at_addr c released b
                   (at_addr c (with_parent None) b
                      (at_addr p (decrement_count (synth_ n)) b x)))
             <$> h !! b.
Proof.
  intros Hn Hp Hlive.
  rewrite (clear_parent_unfold _ _ _ _ Hn Hp).
  destruct (update_view (decrement_count (synth_ n)) p h Hlive)
    as (h1 & -> & H1). simpl.
  assert (is_Some (h1 !! c)) as Hc1 by (rewrite H1, Hn; eauto).
  destruct (update_view (with_parent None) c h1 Hc1) as (h2 & -> & H2). simpl.
  assert (∃ n2, h2 !! c = Some n2 ∧ use_count_ n2 = use_count_ n)
    as (n2 & Hn2 & Hu2).
  { rewrite H2, H1, Hn. simpl. eexists. split; [done|].
    rewrite !at_addr_use_count; try done.
    intros y. unfold decrement_count. by destruct (synth_ n). }
  destruct (release_view c h2 n2 Hn2) as (h3 & -> & H3).
  eexists. split; [done|]. intros b. rewrite H3, Hu2.
  destruct (decide (b = c ∧ use_count_ n = 1%Z)); [done|].
  rewrite H2, H1. by destruct (h !! b).
Qed.

Lemma set_parent_view c p (h : heap) n :
  h !! c = Some n → parent_ n = None → is_Some (h !! p) →
  ∃ h', set_parent c (Some p) h = Ok h' ∧
    ∀ b, h' !! b =
      (λ x, at_addr p (increment_count (synth_ n)) b
              (at_addr c (with_parent (Some p)) b
                 (at_addr c referenced b x)))
        <$> h !! b.
Proof.
  intros Hn Hp Hlive. unfold set_parent, add_ref.
  destruct (update_view referenced c h (mk_is_Some _ _ Hn)) as (h1 & Hu1 & H1).
  unfold referenced in Hu1 at 1. rewrite Hu1. simpl.
  assert (h1 !! c = Some (referenced n)) as Hc1.
  { rewrite H1, Hn. simpl. by rewrite at_addr_eq. }
  rewrite (load_Some _ _ _ Hc1). simpl. rewrite Hp. simpl.
  destruct (update_view (with_parent (Some p)) c h1 (mk_is_Some _ _ Hc1))
    as (h2 & -> & H2). simpl.
  assert (is_Some (h2 !! p)) as Hp2.
  { rewrite H2, H1. destruct Hlive as [g ->]. simpl. eauto. }
  destruct (update_view (increment_count (synth_ n)) p h2 Hp2)
    as (h3 & -> & H3).
  eexists. split; [done|]. intros b. rewrite H3, H2, H1.
  by destruct (h !! b).
Qed.

Lemma set_parent_Ok_inv c parent (h h' : heap) :
  set_parent c parent h = Ok h' →
  ∃ n p, h !! c = Some n ∧ parent_ n = None ∧ parent = Some p ∧
         is_Some (h !! p).
Proof.
  intros Hset. destruct (h !! c) as [n|] eqn:Hn.
  - destruct (parent_ n) as [q|] eqn:Hq.
    + rewrite (set_parent_has_parent _ _ _ n) in Hset; [done..|congruence].
    + destruct parent as [p|].
      * exists n, p. split_and!; try done.
        rewrite (set_parent_unfold _ _ _ _ Hn Hq) in Hset.
        apply update_Ok_live in Hset.
        destruct (decide (c = p)) as [->|Hne]; [eauto|].
        by rewrite lookup_insert_ne in Hset.
      * unfold set_parent, add_ref in Hset.
        rewrite (update_Some _ _ _ _ Hn) in Hset. simpl in Hset.
        rewrite (load_Some _ _ (with_use_count (use_count_ n + 1) n)) in Hset
          by apply lookup_insert_eq.
        simpl in Hset. rewrite Hq in Hset. simpl in Hset.
        rewrite (update_Some _ _ _ (with_use_count (use_count_ n + 1) n))
          in Hset by apply lookup_insert_eq.
        done.
  - unfold set_parent, add_ref, update in Hset. by rewrite Hn in Hset.
Qed.

(** ** The child list as a sequence *)

Lemma erase_perm c (l : list addr) : c ∈ l → l ≡ₚ c :: erase c l.
Proof.
  induction l as [|x l IH]; intros Hc; [by apply elem_of_nil in Hc|]. simpl.
  destruct (decide (x = c)) as [->|Hne]; [done|].
  rewrite (Permutation_swap x c). f_equiv. apply IH. set_solver.
Qed.

Lemma erase_absent c (l : list addr) : c ∉ l → erase c l = l.
Proof.
  induction l as [|x l IH]; intros Hc; [done|]. simpl.
  rewrite decide_False by set_solver. f_equal. apply IH. set_solver.
Qed.

Lemma erase_head c (l : list addr) : erase c (c :: l) = l.
Proof. simpl. by rewrite decide_True. Qed.

Lemma elem_of_erase x c (l : list addr) : x ∈ erase c l → x ∈ l.
Proof.
  destruct (decide (c ∈ l)) as [Hc|Hc].
  - intros Hx. rewrite (erase_perm c l Hc). set_solver.
  - by rewrite erase_absent.
Qed.

Lemma NoDup_erase c (l : list addr) :
  NoDup l → NoDup (erase c l) ∧ c ∉ erase c l.
Proof.
  intros Hnd. destruct (decide (c ∈ l)) as [Hc|Hc].
  - rewrite (erase_perm c l Hc) in Hnd. apply NoDup_cons in Hnd. tauto.
  - by rewrite erase_absent.
Qed.

Lemma insert_before_perm s c (l : list addr) :
  s ∈ l → insert_before s c l ≡ₚ c :: l.
Proof.
  induction l as [|x l IH]; intros Hs; [by apply elem_of_nil in Hs|]. simpl.
  destruct (decide (x = s)) as [->|Hne]; [done|].
  rewrite IH by set_solver. apply Permutation_swap.
Qed.

Lemma insert_after_perm s c (l : list addr) :
  s ∈ l → insert_after s c l ≡ₚ c :: l.
Proof.
  induction l as [|x l IH]; intros Hs; [by apply elem_of_nil in Hs|]. simpl.
  destruct (decide (x = s)) as [->|Hne]; [apply Permutation_swap|].
  rewrite IH by set_solver. apply Permutation_swap.
Qed.

Lemma insert_at_perm pos c (l l' : list addr) :
  insert_at pos c l = Ok l' → l' ≡ₚ c :: l.
Proof.
  destruct pos as [| |s|s|i]; simpl.
  - by intros [= <-].
  - intros [= <-]. by rewrite Permutation_app_comm.
  - destruct (bool_decide (s ∈ l)) eqn:Hs; simpl; [|done]. intros [= <-].
    apply insert_before_perm. by apply bool_decide_eq_true in Hs.
  - destruct (bool_decide (s ∈ l)) eqn:Hs; simpl; [|done]. intros [= <-].
    apply insert_after_perm. by apply bool_decide_eq_true in Hs.
  - intros [= <-]. rewrite <- Permutation_middle. f_equiv.
    by rewrite take_drop.
Qed.

(** ** Counting the children of one kind *)

Lemma kind_count_cons (h : heap) s c l :
  kind_count h s (c :: l) =
    ((if decide (synth_ <$> h !! c = Some s) then 1 else 0)
     + kind_count h s l)%Z.
Proof.
  unfold kind_count. rewrite filter_cons.
  destruct (decide (synth_ <$> h !! c = Some s)); simpl; lia.
Qed.

Lemma kind_count_perm (h : heap) s l l' :
  l ≡ₚ l' → kind_count h s l = kind_count h s l'.
Proof. intros Hl. unfold kind_count. by rewrite Hl. Qed.

Lemma kind_count_ext (h h' : heap) s l :
  (∀ c, c ∈ l → synth_ <$> h' !! c = synth_ <$> h !! c) →
  kind_count h' s l = kind_count h s l.
Proof.
  induction l as [|c l IH]; intros Hl; [done|].
  rewrite !kind_count_cons, IH by (intros; apply Hl; set_solver).
  by rewrite (Hl c) by set_solver.
Qed.

Lemma kind_count_erase (h : heap) s c l :
  c ∈ l →
  kind_count h s (erase c l) =
    (kind_count h s l
     - (if decide (synth_ <$> h !! c = Some s) then 1 else 0))%Z.
Proof.
  intros Hc. rewrite (kind_count_perm h s l _ (erase_perm c l Hc)).
  rewrite kind_count_cons. lia.
Qed.

Lemma kind_count_total (h : heap) l :
  (∀ c, c ∈ l → is_Some (h !! c)) →
  (kind_count h true l + kind_count h false l)%Z = Z.of_nat (length l).
Proof.
  induction l as [|c l IH]; intros Hl; [done|].
  rewrite !kind_count_cons. simpl length.
  specialize (IH ltac:(intros; apply Hl; set_solver)).
  destruct (Hl c) as [n Hn]; [set_solver|]. rewrite Hn. simpl.
  destruct (synth_ n).
  - rewrite decide_True, decide_False by done. lia.
  - rewrite decide_False, decide_True by done. lia.
Qed.

(** ** Reading the invariant *)

Lemma consistent_child (h : heap) a g c :
  consistent h → h !! a = Some g → c ∈ child_nodes g →
  ∃ n, h !! c = Some n ∧ parent_ n = Some a.
Proof.
  intros Hh Hg Hc. destruct (Hh _ _ Hg) as (Hch & _).
  eapply Forall_forall in Hch; [|done].
  destruct (h !! c) as [n|]; [|done]. exists n. split; [done|].
  simpl in Hch. congruence.
Qed.

Lemma consistent_NoDup (h : heap) a g :
  consistent h → h !! a = Some g → NoDup (child_nodes g).
Proof. intros Hh Hg. by destruct (Hh _ _ Hg) as (_ & ? & _). Qed.

Lemma consistent_one_parent (h : heap) a a' g g' c :
  consistent h → h !! a = Some g → h !! a' = Some g' →
  c ∈ child_nodes g → c ∈ child_nodes g' → a = a'.
Proof.
  intros Hh Hg Hg' Hc Hc'.
  destruct (consistent_child _ _ _ _ Hh Hg Hc) as (n & Hn & Hp).
  destruct (consistent_child _ _ _ _ Hh Hg' Hc') as (n' & Hn' & Hp').
  congruence.
Qed.

Lemma consistent_unlisted (h : heap) a g c n :
  consistent h → h !! a = Some g → h !! c = Some n → parent_ n = None →
  c ∉ child_nodes g.
Proof.
  intros Hh Hg Hn Hp Hc.
  destruct (consistent_child _ _ _ _ Hh Hg Hc) as (n' & Hn' & Hp').
  congruence.
Qed.

Lemma consistent_child_count (h : heap) a g :
  consistent h → h !! a = Some g →
  child_count g = list_size (child_nodes g).
Proof.
  intros Hh Hg. destruct (Hh _ _ Hg) as (_ & _ & Hs & Hgr).
  unfold child_count, list_size. rewrite Hs, Hgr.
  rewrite <- (kind_count_total h).
  - unfold wrap. by rewrite <- Zplus_mod.
  - intros c Hc. destruct (consistent_child _ _ _ _ Hh Hg Hc) as (n & -> & _).
    eauto.
Qed.

(** ** Attaching a child keeps the invariant *)

Lemma attach_view_fields this c s l b x :
  synth_ (attach_view this c s l b x) = synth_ x ∧
  child_nodes (attach_view this c s l b x) =
    (if decide (b = this) then l else child_nodes x) ∧
  parent_ (attach_view this c s l b x) =
    (if decide (b = c) then Some this else parent_ x) ∧
  child_synths_ (attach_view this c s l b x) =
    (if decide (b = this)
     then (if s then wrap (child_synths_ x + 1) else child_synths_ x)
     else child_synths_ x) ∧
  child_groups_ (attach_view this c s l b x) =
    (if decide (b = this)
     then (if s then child_groups_ x else wrap (child_groups_ x + 1))
     else child_groups_ x).
Proof.
  unfold attach_view, at_addr, increment_count.
  destruct (decide (b = this)), (decide (b = c)), s; done.
Qed.

Lemma add_child_view this c pos (h h' : heap) :
  add_child this c pos h = Ok h' →
  ∃ g n l,
    h !! this = Some g ∧ h !! c = Some n ∧ parent_ n = None ∧
    insert_at pos c (child_nodes g) = Ok l ∧
    ∀ b, h' !! b = attach_view this c (synth_ n) l b <$> h !! b.
Proof.
  unfold add_child. intros (g & Hg%load_Ok & Hrest)%bind_Ok.
  apply bind_Ok in Hrest as (l & Hl & Hrest).
  apply bind_Ok in Hrest as (h1 & Hh1 & Hset).
  destruct (update_view (with_child_nodes l) this h (mk_is_Some _ _ Hg))
    as (h1' & Hh1' & H1).
  assert (h1' = h1) as -> by congruence.
  destruct (set_parent_Ok_inv _ _ _ _ Hset) as (n1 & p & Hn1 & Hp1 & [= <-] & Hlive).
  destruct (set_parent_view c this h1 n1 Hn1 Hp1 Hlive) as (h'' & Hset' & H2).
  assert (h'' = h') as -> by congruence.
  rewrite H1 in Hn1. destruct (h !! c) as [n|] eqn:Hn; [|done].
  simpl in Hn1. injection Hn1 as <-.
  exists g, n, l. split_and!; try done.
  - rewrite at_addr_parent in Hp1; done.
  - intros b. rewrite H2, H1. rewrite at_addr_synth by done.
    by destruct (h !! b).
Qed.

Lemma add_child_consistent this c pos (h h' : heap) :
  consistent h → add_child this c pos h = Ok h' → consistent h'.
Proof.
  intros Hh (g & n & l & Hg & Hn & Hp & Hl%insert_at_perm & Hview)%add_child_view.
  assert (∀ d, synth_ <$> h' !! d = synth_ <$> h !! d) as Hkind.
  { intros d. rewrite Hview. destruct (h !! d) as [y|]; [|done]. simpl.
    f_equal. apply attach_view_fields. }
  assert (∀ d, d ≠ c → parent_ <$> h' !! d = parent_ <$> h !! d) as Hparent.
  { intros d Hd. rewrite Hview. destruct (h !! d) as [y|]; [|done]. simpl.
    f_equal.
    destruct (attach_view_fields this c (synth_ n) l d y) as (_ & _ & -> & _).
    by rewrite decide_False. }
  assert (parent_ <$> h' !! c = Some (Some this)) as Hc.
  { rewrite Hview, Hn. simpl. f_equal.
    destruct (attach_view_fields this c (synth_ n) l c n) as (_ & _ & -> & _).
    by rewrite decide_True. }
  assert (∀ a y, h !! a = Some y → c ∉ child_nodes y) as Hunlisted
    by (intros a y Hy; by eapply consistent_unlisted).
  intros b x' Hb. rewrite Hview in Hb.
  destruct (h !! b) as [x|] eqn:Hx; [|done]. simpl in Hb. injection Hb as <-.
  destruct (Hh _ _ Hx) as (Hch & Hnd & Hcs & Hcg).
  destruct (attach_view_fields this c (synth_ n) l b x)
    as (Es & El & Ep & Ecs & Ecg).
  unfold node_consistent. rewrite El, Ecs, Ecg.
  destruct (decide (b = this)) as [->|Hne].
  - assert (x = g) as -> by congruence. split_and!.
    + apply Forall_forall. intros d Hd. rewrite Hl in Hd.
      apply elem_of_cons in Hd as [->|Hd]; [done|].
      rewrite Hparent by (intros ->; by eapply Hunlisted).
      by eapply Forall_forall in Hch.
    + rewrite Hl. apply NoDup_cons. split; [by eapply Hunlisted | done].
    + rewrite (kind_count_ext h h') by done.
      rewrite (kind_count_perm _ _ _ _ Hl), kind_count_cons, Hn. simpl.
      rewrite Hcs. destruct (synth_ n).
      * rewrite decide_True by done. rewrite wrap_wrap_add. f_equal. lia.
      * by rewrite decide_False by done.
    + rewrite (kind_count_ext h h') by done.
      rewrite (kind_count_perm _ _ _ _ Hl), kind_count_cons, Hn. simpl.
      rewrite Hcg. destruct (synth_ n).
      * by rewrite decide_False by done.
      * rewrite decide_True by done. rewrite wrap_wrap_add. f_equal. lia.
  - split_and!; [|done|by rewrite (kind_count_ext h h')..].
    apply Forall_forall. intros d Hd.
    rewrite Hparent by (intros ->; by eapply Hunlisted).
    by eapply Forall_forall in Hch.
Qed.

(** ** Detaching a child keeps the invariant *)

Lemma detach_view_fields this c s b x :
  synth_ (detach_view this c s b x) = synth_ x ∧
  child_nodes (detach_view this c s b x) =
    (if decide (b = this) then erase c (child_nodes x) else child_nodes x) ∧
  parent_ (detach_view this c s b x) =
    (if decide (b = c) then None else parent_ x) ∧
  use_count_ (detach_view this c s b x) =
    (if decide (b = c) then (use_count_ x - 1)%Z else use_count_ x) ∧
  child_synths_ (detach_view this c s b x) =
    (if decide (b = this)
     then (if s then wrap (child_synths_ x - 1) else child_synths_ x)
     else child_synths_ x) ∧
  child_groups_ (detach_view this c s b x) =
    (if decide (b = this)
     then (if s then child_groups_ x else wrap (child_groups_ x - 1))
     else child_groups_ x) ∧
  is_parallel_ (detach_view this c s b x) = is_parallel_ x ∧
  node_id (detach_view this c s b x) = node_id x.
Proof.
  unfold detach_view, at_addr, decrement_count.
  destruct (decide (b = this)), (decide (b = c)), s; done.
Qed.

Lemma detach_view_other this c s b x :
  b ≠ this → b ≠ c → detach_view this c s b x = x.
Proof. intros. unfold detach_view. by rewrite !at_addr_ne. Qed.

Lemma erase_and_dispose_view this c (h : heap) g n :
  h !! this = Some g → h !! c = Some n → parent_ n = Some this →
  ∃ h', erase_and_dispose clear_parent this c h = Ok h' ∧
    ∀ b, h' !! b = if decide (b = c ∧ use_count_ n = 1%Z) then None
                   else detach_view this c (synth_ n) b <$> h !! b.
Proof.
  intros Hg Hn Hp. unfold erase_and_dispose.
  destruct (update_view (λ g, with_child_nodes (erase c (child_nodes g)) g)
              this h (mk_is_Some _ _ Hg)) as (h1 & -> & H1). simpl.
  set (n1 := at_addr this
               (λ g, with_child_nodes (erase c (child_nodes g)) g) c n).
  assert (h1 !! c = Some n1) as Hn1 by by rewrite H1, Hn.
  assert (parent_ n1 = Some this) as Hp1
    by (subst n1; by rewrite at_addr_parent).
  assert (use_count_ n1 = use_count_ n) as Hu1
    by (subst n1; by rewrite at_addr_use_count).
  assert (synth_ n1 = synth_ n) as Hs1 by (subst n1; by rewrite at_addr_synth).
  assert (is_Some (h1 !! this)) as Hlive by (rewrite H1, Hg; eauto).
  destruct (clear_parent_view c this h1 n1 Hn1 Hp1 Hlive) as (h' & -> & H2).
  eexists. split; [done|]. intros b. rewrite H2, Hu1, Hs1, H1.
  destruct (decide (b = c ∧ use_count_ n = 1%Z)); [done|].
  by destruct (h !! b).
Qed.

Lemma detach_view_consistent this c (h h' : heap) g n :
  consistent h →
  h !! this = Some g → c ∈ child_nodes g → h !! c = Some n →
  (∀ b, h' !! b = if decide (b = c ∧ use_count_ n = 1%Z) then None
                  else detach_view this c (synth_ n) b <$> h !! b) →
  consistent h'.
Proof.
  intros Hh Hg Hc Hn Hview.
  assert (∀ d, d ≠ c → synth_ <$> h' !! d = synth_ <$> h !! d) as Hkind.
  { intros d Hd. rewrite Hview. rewrite decide_False by (intros [? _]; done).
    destruct (h !! d) as [y|]; [|done]. simpl. f_equal.
    apply detach_view_fields. }
  assert (∀ d, d ≠ c → parent_ <$> h' !! d = parent_ <$> h !! d) as Hparent.
  { intros d Hd. rewrite Hview. rewrite decide_False by (intros [? _]; done).
    destruct (h !! d) as [y|]; [|done]. simpl. f_equal.
    destruct (detach_view_fields this c (synth_ n) d y) as (_ & _ & -> & _).
    by rewrite decide_False. }
  assert (∀ a y, h !! a = Some y → c ∈ child_nodes y → a = this) as Honly
    by (intros a y Hy Hcy; by eapply (consistent_one_parent h a this y g c)).
  intros b x' Hb. rewrite Hview in Hb.
  destruct (decide (b = c ∧ use_count_ n = 1%Z)); [done|].
  destruct (h !! b) as [x|] eqn:Hx; [|done]. simpl in Hb. injection Hb as <-.
  destruct (Hh _ _ Hx) as (Hch & Hnd & Hcs & Hcg).
  destruct (detach_view_fields this c (synth_ n) b x)
    as (Es & El & Ep & Eu & Ecs & Ecg & _).
  unfold node_consistent. rewrite El, Ecs, Ecg.
  destruct (decide (b = this)) as [->|Hne].
  - assert (x = g) as -> by congruence.
    destruct (NoDup_erase c _ Hnd) as [Hnd' Hc'].
    assert (∀ d, d ∈ erase c (child_nodes g) → d ≠ c) as Hdc
      by (intros d Hd ->; done).
    split_and!.
    + apply Forall_forall. intros d Hd. rewrite Hparent by auto.
      eapply Forall_forall in Hch; [done|]. by eapply elem_of_erase.
    + done.
    + rewrite (kind_count_ext h h') by auto.
      rewrite kind_count_erase, Hn by done. simpl.
      rewrite Hcs. destruct (synth_ n).
      * rewrite decide_True by done. by rewrite wrap_wrap_sub.
      * rewrite decide_False by done. f_equal. lia.
    + rewrite (kind_count_ext h h') by auto.
      rewrite kind_count_erase, Hn by done. simpl.
      rewrite Hcg. destruct (synth_ n).
      * rewrite decide_False by done. f_equal. lia.
      * rewrite decide_True by done. by rewrite wrap_wrap_sub.
  - assert (∀ d, d ∈ child_nodes x → d ≠ c) as Hdc.
    { intros d Hd ->. apply Hne. by eapply Honly. }
    split_and!; [|done|by rewrite (kind_count_ext h h') by auto..].
    apply Forall_forall. intros d Hd. rewrite Hparent by auto.
    by eapply Forall_forall in Hch.
Qed.

(** Unlinking a listed child and clearing its parent succeeds on a consistent
    store, and leaves a consistent store. *)
Lemma detach_step this c (h : heap) g :
  consistent h → h !! this = Some g → c ∈ child_nodes g →
  ∃ n h',
    h !! c = Some n ∧ parent_ n = Some this ∧
    erase_and_dispose clear_parent this c h = Ok h' ∧
    (∀ b, h' !! b = if decide (b = c ∧ use_count_ n = 1%Z) then None
                    else detach_view this c (synth_ n) b <$> h !! b) ∧
    consistent h'.
Proof.
  intros Hh Hg Hc.
  destruct (consistent_child _ _ _ _ Hh Hg Hc) as (n & Hn & Hp).
  destruct (erase_and_dispose_view this c h g n Hg Hn Hp) as (h' & Hok & Hview).
  exists n, h'. split_and!; try done.
  exact (detach_view_consistent this c h h' g n Hh Hg Hc Hn Hview).
Qed.

Lemma remove_child_consistent this c (h h' : heap) :
  consistent h → remove_child this c h = Ok h' → consistent h'.
Proof.
  intros Hh. unfold remove_child. intros (g & Hg%load_Ok & Hrest)%bind_Ok.
  apply bind_Ok in Hrest as ([] & Hc%assert_Ok & Hrest).
  apply bool_decide_eq_true in Hc.
  destruct (detach_step this c h g Hh Hg Hc) as (n & h'' & _ & _ & Hok & _ & Hh').
  rewrite Hok in Hrest. by injection Hrest as <-.
Qed.

(** ** The counts after any sequence of attach and detach requests *)

Lemma run_consistent rs (h h' : heap) :
  consistent h → run rs h = Ok h' → consistent h'.
Proof.
  revert h. induction rs as [|r rs IH]; intros h Hh; simpl.
  - by intros [= <-].
  - intros (h1 & Hr & Hrest)%bind_Ok. apply (IH h1); [|done].
    destruct r as [g c pos|g c]; simpl in Hr.
    + by eapply add_child_consistent.
    + by eapply remove_child_consistent.
Qed.

Lemma run_app rs1 rs2 (h h' : heap) :
  run (rs1 ++ rs2) h = Ok h' →
  ∃ h1, run rs1 h = Ok h1 ∧ run rs2 h1 = Ok h'.
Proof.
  revert h. induction rs1 as [|r rs1 IH]; intros h; simpl; [eauto|].
  intros (h0 & Hr & Hrest)%bind_Ok. rewrite Hr. simpl. by apply IH.
Qed.

(** C1: starting from a consistent store, after every request of a sequence
    of attach and detach requests that runs to its end, each object's two
    counters are the numbers of synths and of groups in its child list, and
    [child_count()] equals the size of that list. *)
Theorem counts_match_children (rs1 rs2 : list request) (h h' : heap) :
  consistent h →
  run (rs1 ++ rs2) h = Ok h' →
  ∃ h1, run rs1 h = Ok h1 ∧
    ∀ a g, h1 !! a = Some g →
      child_synths_ g = wrap (kind_count h1 true (child_nodes g)) ∧
      child_groups_ g = wrap (kind_count h1 false (child_nodes g)) ∧
      child_count g = list_size (child_nodes g).
Proof.
  intros Hh (h1 & Hrun1 & _)%run_app. exists h1. split; [done|].
  pose proof (run_consistent _ _ _ Hh Hrun1) as Hh1.
  intros a g Hg. destruct (Hh1 _ _ Hg) as (_ & _ & Hs & Hgr).
  split_and!; [done..|]. by eapply consistent_child_count.
Qed.

Lemma counts_match_children_witness :
  ∃ h1, run sample_requests_1 sample_nodes = Ok h1 ∧
    ∀ a g, h1 !! a = Some g →
      child_synths_ g = wrap (kind_count h1 true (child_nodes g)) ∧
      child_groups_ g = wrap (kind_count h1 false (child_nodes g)) ∧
      child_count g = list_size (child_nodes g).
Proof.
  apply (counts_match_children sample_requests_1 sample_requests_2
           sample_nodes sample_after_requests).
  - by_computation.
  - vm_compute. reflexivity.
Defined.

(** A store of freshly constructed objects is consistent. *)
Lemma fresh_consistent (h : heap) :
  (∀ a g, h !! a = Some g →
     child_nodes g = [] ∧ child_synths_ g = 0%Z ∧ child_groups_ g = 0%Z) →
  consistent h.
Proof.
  intros Hfresh a g Hg. destruct (Hfresh _ _ Hg) as (Hl & Hs & Hgr).
  unfold node_consistent. rewrite Hl, Hs, Hgr.
  split_and!; [constructor | constructor | done | done].
Qed.

(** ** Clearing the children of a group *)

Lemma same_base_refl x : same_base x x.
Proof. by unfold same_base. Qed.

Lemma same_base_trans x y z : same_base x y → same_base y z → same_base x z.
Proof. unfold same_base. intros (?&?&?&?&?) (?&?&?&?&?). split_and!; congruence. Qed.

Lemma detach_view_same_base this c s b x :
  b ≠ c → same_base x (detach_view this c s b x).
Proof.
  intros Hne.
  destruct (detach_view_fields this c s b x) as (?&?&Hp&Hu&?&?&?&?).
  rewrite decide_False in Hp by done. rewrite decide_False in Hu by done.
  by unfold same_base.
Qed.

Lemma detach_view_child this c s x :
  c ≠ this → detach_view this c s c x = detached_node x.
Proof.
  intros Hne. unfold detach_view.
  rewrite !at_addr_eq, !at_addr_ne by done. done.
Qed.

Lemma clear_children_loop this (l : list addr) :
  ∀ (h : heap) g,
    consistent h → h !! this = Some g → child_nodes g = l → this ∉ l →
    ∃ h' g',
      for_each (erase_and_dispose clear_parent this) l h = Ok h' ∧
      consistent h' ∧
      h' !! this = Some g' ∧ child_nodes g' = [] ∧ same_base g g' ∧
      (∀ c n, c ∈ l → h !! c = Some n → h' !! c = after_clear_parent n) ∧
      (∀ b, b ≠ this → b ∉ l → h' !! b = h !! b).
Proof.
  induction l as [|c l IH]; intros h g Hh Hg Hl Hthis.
  - exists h, g. simpl.
    split_and!; [done..|apply same_base_refl| |done].
    intros c n Hc. by apply elem_of_nil in Hc.
  - assert (c ∈ child_nodes g) as Hc by (rewrite Hl; set_solver).
    assert (c ≠ this) as Hne by set_solver.
    pose proof (consistent_NoDup _ _ _ Hh Hg) as Hnd. rewrite Hl in Hnd.
    apply NoDup_cons in Hnd as [Hcl Hnd].
    destruct (detach_step this c h g Hh Hg Hc)
      as (n & h1 & Hn & Hp & Hok & Hview & Hh1).
    assert (∀ b, b ≠ c → h1 !! b = detach_view this c (synth_ n) b <$> h !! b)
      as Hview1.
    { intros b Hb. rewrite Hview. by rewrite decide_False by (intros [? _]; done). }
    set (g1 := detach_view this c (synth_ n) this g).
    assert (h1 !! this = Some g1) as Hg1 by (rewrite Hview1, Hg; done).
    assert (child_nodes g1 = l) as Hl1.
    { subst g1.
      destruct (detach_view_fields this c (synth_ n) this g) as (_ & -> & _).
      rewrite decide_True by done. rewrite Hl. apply erase_head. }
    destruct (IH h1 g1 Hh1 Hg1 Hl1 ltac:(set_solver))
      as (h' & g' & Hloop & Hh' & Hg' & Hl' & Hbase & Hchildren & Hothers).
    exists h', g'. simpl. rewrite Hok. simpl. split_and!; try done.
    + eapply same_base_trans; [|done]. subst g1.
      by apply detach_view_same_base.
    + intros d m Hd Hm. apply elem_of_cons in Hd as [->|Hd].
      * rewrite Hothers by done. rewrite Hview.
        assert (m = n) as -> by congruence. rewrite Hn. simpl.
        unfold after_clear_parent.
        destruct (decide (use_count_ n = 1%Z)).
        -- by rewrite decide_True.
        -- rewrite decide_False by (intros [_ ?]; done).
           by rewrite detach_view_child.
      * apply Hchildren; [done|].
        rewrite Hview1 by (intros ->; done). rewrite Hm. simpl.
        rewrite detach_view_other; [done| |]; intros ->; set_solver.
    + intros b Hb Hbl. rewrite Hothers by set_solver.
      rewrite Hview1 by set_solver.
      destruct (h !! b); [|done]. simpl.
      rewrite detach_view_other; [done|done|set_solver].
Qed.

Lemma clear_children_dangling this (l : list addr) (h h' : heap) :
  h !! this = None →
  for_each (erase_and_dispose clear_parent this) l h = Ok h' →
  h' !! this = None.
Proof.
  intros Hthis. destruct l as [|c l]; simpl.
  - by intros [= <-].
  - assert (erase_and_dispose clear_parent this c h = Fail DanglingPointer)
      as -> by (unfold erase_and_dispose, update; by rewrite Hthis).
    done.
Qed.

Lemma clear_children_returned this (l : list addr) :
  ∀ (h : heap) g h' g',
    consistent h → h !! this = Some g → child_nodes g = l →
    for_each (erase_and_dispose clear_parent this) l h = Ok h' →
    h' !! this = Some g' →
    consistent h' ∧ child_nodes g' = [] ∧
    (∀ c n, c ∈ l → c ≠ this → h !! c = Some n →
       h' !! c = after_clear_parent n) ∧
    parent_ g' = (if decide (this ∈ l) then None else parent_ g) ∧
    use_count_ g' = (if decide (this ∈ l)
                     then (use_count_ g - 1)%Z else use_count_ g) ∧
    (∀ b, b ≠ this → b ∉ l → h' !! b = h !! b).
Proof.
  induction l as [|c l IH]; intros h g h' g' Hh Hg Hl Hrun Hg'.
  { simpl in Hrun. injection Hrun as <-.
    assert (g' = g) as -> by congruence. split_and!; try done.
    intros c n Hc. by apply elem_of_nil in Hc. }
  assert (c ∈ child_nodes g) as Hc by (rewrite Hl; set_solver).
  pose proof (consistent_NoDup _ _ _ Hh Hg) as Hnd. rewrite Hl in Hnd.
  apply NoDup_cons in Hnd as [Hcl Hnd].
  destruct (detach_step this c h g Hh Hg Hc)
    as (n & h1 & Hn & Hp & Hok & Hview & Hh1).
  simpl in Hrun. rewrite Hok in Hrun. simpl in Hrun.
  destruct (detach_view_fields this c (synth_ n) this g)
    as (_ & El & Ep & Eu & _).
  rewrite decide_True in El by done. rewrite Hl, erase_head in El.
  destruct (decide (c = this)) as [->|Hne].
  - assert (n = g) as -> by congruence.
    rewrite decide_True in Ep by done. rewrite decide_True in Eu by done.
    rewrite decide_True by set_solver. rewrite decide_True by set_solver.
    destruct (decide (use_count_ g = 1%Z)) as [Hlast|Hkept].
    + assert (h1 !! this = None) as Hgone
        by (rewrite Hview; by rewrite decide_True).
      rewrite (clear_children_dangling this l h1 h' Hgone Hrun) in Hg'. done.
    + assert (h1 !! this = Some (detach_view this this (synth_ g) this g))
        as Hg1.
      { rewrite Hview, decide_False by (intros [_ ?]; done). by rewrite Hg. }
      destruct (clear_children_loop this l h1 _ Hh1 Hg1 El Hcl)
        as (h'' & g'' & Hloop & Hh' & Hg'' & Hl' & Hbase & Hchildren & Hothers).
      assert (h'' = h') as -> by congruence.
      assert (g'' = g') as -> by congruence.
      destruct Hbase as (_ & _ & Hp' & Hu' & _).
      split_and!; try done; try congruence.
      * intros d m [->|Hd]%elem_of_cons Hdne Hm; [done|].
        apply Hchildren; [done|]. rewrite Hview.
        rewrite decide_False by (intros [? _]; done). rewrite Hm. simpl.
        by rewrite detach_view_other.
      * intros b Hb Hbl. rewrite Hothers by set_solver. rewrite Hview.
        rewrite decide_False by (intros [? _]; done).
        destruct (h !! b); [|done]. simpl. by rewrite detach_view_other.
  - rewrite decide_False in Ep by done. rewrite decide_False in Eu by done.
    assert (∀ b, b ≠ c → h1 !! b = detach_view this c (synth_ n) b <$> h !! b)
      as Hview1.
    { intros b Hb. rewrite Hview. by rewrite decide_False by (intros [? _]; done). }
    assert (h1 !! this = Some (detach_view this c (synth_ n) this g)) as Hg1
      by (rewrite Hview1, Hg; done).
    destruct (IH h1 _ h' g' Hh1 Hg1 El Hrun Hg')
      as (Hh' & Hl' & Hchildren & Hp' & Hu' & Hothers).
    rewrite Ep in Hp'. rewrite Eu in Hu'.
    split_and!; try done.
    + intros d m [->|Hd]%elem_of_cons Hdne Hm.
      * rewrite Hothers by done. rewrite Hview.
        assert (m = n) as -> by congruence. rewrite Hn. simpl.
        unfold after_clear_parent.
        destruct (decide (use_count_ n = 1%Z)).
        -- by rewrite decide_True.
        -- rewrite decide_False by (intros [_ ?]; done).
           by rewrite detach_view_child.
      * apply Hchildren; [done..|].
        rewrite Hview1 by (intros ->; done). rewrite Hm. simpl.
        by rewrite detach_view_other by (done || intros ->; done).
    + rewrite Hp'. destruct (decide (this ∈ l)).
      * by rewrite decide_True by set_solver.
      * by rewrite decide_False by set_solver.
    + rewrite Hu'. destruct (decide (this ∈ l)).
      * by rewrite decide_True by set_solver.
      * by rewrite decide_False by set_solver.
    + intros b Hb Hbl. rewrite Hothers by set_solver.
      rewrite Hview1 by set_solver.
      destruct (h !! b); [|done]. simpl.
      rewrite detach_view_other; [done|done|set_solver].
Qed.

(** C8: for every group of a consistent store, whenever [free_children]
    returns, the child list of the group is empty and both its counters are
    zero, every former child has had its parent pointer cleared and one
    reference released (and has left the store if that was its last
    reference), no other object has changed, and the store is consistent
    again ([children_freed]).  And the call does return when the group is not
    linked into its own child list. *)
Theorem free_children_clears (h : heap) (this : addr) (g : node) :
  consistent h →
  h !! this = Some g → synth_ g = false →
  (∀ h', free_children this h = Ok h' → children_freed h this h') ∧
  (this ∉ child_nodes g → ∃ h', free_children this h = Ok h').
Proof.
  intros Hh Hg _. split.
  - intros h'. unfold free_children, clear_and_dispose.
    rewrite (load_Some _ _ _ Hg). simpl.
    intros (h1 & Hclear & Hrest)%bind_Ok.
    apply bind_Ok in Hclear as (h0 & Hloop & Hreset).
    apply bind_Ok in Hrest as (g' & Hg'%load_Ok & Hrest).
    apply bind_Ok in Hrest as ([] & Hs%assert_Ok & Hrest).
    apply bind_Ok in Hrest as ([] & Hgr%assert_Ok & [= <-]).
    destruct (update_Ok_live _ _ _ _ Hreset) as [g0 Hg0].
    destruct (clear_children_returned this (child_nodes g) h g h0 g0
                Hh Hg eq_refl Hloop Hg0)
      as (Hh0 & Hl0 & Hchildren & Hp0 & Hu0 & Hothers).
    rewrite (update_Some _ _ _ _ Hg0) in Hreset. injection Hreset as <-.
    assert (with_child_nodes [] g0 = g0) as Hsame
      by (destruct g0; simpl in Hl0; by subst).
    rewrite Hsame, insert_id in * by done.
    assert (g' = g0) as -> by congruence.
    exists g, g0. split_and!; try done; lia.
  - intros Hthis.
    destruct (clear_children_loop this (child_nodes g) h g Hh Hg eq_refl Hthis)
      as (h' & g' & Hloop & Hh' & Hg' & Hl' & _).
    destruct (Hh' _ _ Hg') as (_ & _ & Hs & Hgr). rewrite Hl' in Hs, Hgr.
    change (child_synths_ g' = 0%Z) in Hs.
    change (child_groups_ g' = 0%Z) in Hgr.
    exists h'. unfold free_children, clear_and_dispose.
    rewrite (load_Some _ _ _ Hg). simpl. rewrite Hloop. simpl.
    rewrite (update_Some _ _ _ _ Hg'). simpl.
    assert (with_child_nodes [] g' = g') as ->
      by (destruct g'; simpl in Hl'; by subst).
    rewrite insert_id by done. rewrite (load_Some _ _ _ Hg'). simpl.
    by rewrite Hs, Hgr.
Qed.

Lemma free_children_clears_witness :
  (∀ h', free_children 1 sample_heap = Ok h' →
     children_freed sample_heap 1 h') ∧
  (1 ∉ [10; 2] → ∃ h', free_children 1 sample_heap = Ok h').
Proof.
  apply (free_children_clears sample_heap 1
           (Node 1 false None 1 [10; 2] false 1 1)).
  - by_computation.
  - vm_compute. reflexivity.
  - reflexivity.
Defined.

Example free_children_sample :
  ∃ h', free_children 1 sample_heap = Ok h' ∧
        h' !! 1 = Some (Node 1 false None 1 [] false 0 0) ∧
        h' !! 10 = None ∧
        h' !! 2 = None.
Proof. eexists. split; [by vm_compute|]. split_and!; by vm_compute. Qed.

(** ** Removing the synths below a group *)

Lemma group_at_lookup (h : heap) c :
  group_at h c ↔ ∃ x, h !! c = Some x ∧ synth_ x = false.
Proof.
  unfold group_at. destruct (h !! c) as [x|]; simpl; [|naive_solver].
  split; [intros [= ?]; eauto | intros (? & [= <-] & ->); done].
Qed.

Lemma synth_at_lookup (h : heap) c :
  synth_at h c ↔ ∃ x, h !! c = Some x ∧ synth_ x = true.
Proof.
  unfold synth_at. destruct (h !! c) as [x|]; simpl; [|naive_solver].
  split; [intros [= ?]; eauto | intros (? & [= <-] & ->); done].
Qed.

Lemma after_clear_parent_Some n y :
  after_clear_parent n = Some y → y = detached_node n.
Proof. unfold after_clear_parent. case_decide; congruence. Qed.

Lemma without_synths_fields (h : heap) x :
  same_base x (without_synths h x) ∧
  child_nodes (without_synths h x) = groups_of h (child_nodes x) ∧
  child_synths_ (without_synths h x) = 0%Z ∧
  child_groups_ (without_synths h x) = child_groups_ x.
Proof. by unfold same_base. Qed.

Lemma cleaning_refl (h : heap) : cleaning h h.
Proof. split; auto. Qed.

Lemma cleaning_group_at (h h' : heap) d :
  cleaning h h' → group_at h d ↔ group_at h' d.
Proof.
  intros Hc. rewrite !group_at_lookup. split.
  - intros (x & Hx & Hs).
    destruct (cleaning_group _ _ Hc _ _ Hx Hs) as [Hd|(x' & Hx' & _ & Hd & _)];
      [eauto|].
    eexists. split; [done|]. assert (x' = x) as -> by congruence. done.
  - intros (y & Hy & Hs). destruct (h !! d) as [x|] eqn:Hx.
    + exists x. split; [done|]. destruct (synth_ x) eqn:Hsx; [|done].
      destruct (cleaning_synth _ _ Hc _ _ Hx Hsx) as [Hd|[_ Hd]].
      * congruence.
      * rewrite Hy in Hd. symmetry in Hd.
        apply after_clear_parent_Some in Hd. subst y. simpl in Hs. congruence.
    + rewrite (cleaning_fresh _ _ Hc _ Hx) in Hy. done.
Qed.

Lemma groups_of_cleaning (h h' : heap) l :
  cleaning h h' → groups_of h' l = groups_of h l.
Proof.
  intros Hc. unfold groups_of. apply list_filter_iff.
  intros d. symmetry. by apply cleaning_group_at.
Qed.

Lemma groups_of_groups_of (h : heap) l :
  groups_of h (groups_of h l) = groups_of h l.
Proof.
  unfold groups_of. rewrite list_filter_filter. apply list_filter_iff.
  tauto.
Qed.

Lemma elem_of_groups_of (h : heap) l c :
  c ∈ groups_of h l ↔ group_at h c ∧ c ∈ l.
Proof. unfold groups_of. apply list_elem_of_filter. Qed.

Lemma without_synths_cleaning (h h' : heap) x :
  cleaning h h' → without_synths h' x = without_synths h x.
Proof. intros Hc. unfold without_synths. by rewrite (groups_of_cleaning h h'). Qed.

Lemma without_synths_twice (h : heap) x :
  without_synths h (without_synths h x) = without_synths h x.
Proof.
  unfold without_synths. simpl. rewrite groups_of_groups_of. done.
Qed.

Lemma cleaning_synth_stays (h1 h2 : heap) s n :
  cleaning h1 h2 → synth_ n = true →
  h1 !! s = after_clear_parent n → h2 !! s = after_clear_parent n.
Proof.
  intros Hc Hs H1. destruct (after_clear_parent n) as [y|] eqn:Hy.
  - apply after_clear_parent_Some in Hy. subst y.
    destruct (cleaning_synth _ _ Hc _ _ H1 Hs) as [H2|[Hp _]]; [done|].
    by simpl in Hp.
  - by apply (cleaning_fresh _ _ Hc).
Qed.

Lemma cleaned_stays (h h1 h2 : heap) a :
  cleaning h h1 → cleaning h1 h2 → cleaned h h1 a → cleaned h h2 a.
Proof.
  intros Hc1 Hc2 (x & Hx & Hs & Ha & Hsynths).
  exists x. split_and!; try done.
  - destruct (cleaning_group _ _ Hc2 _ _ Ha Hs)
      as [H2|(x1 & Hx1 & _ & H2 & _)]; [done|].
    assert (x1 = without_synths h x) as -> by congruence.
    by rewrite H2, (without_synths_cleaning h h1), without_synths_twice.
  - intros s n Hin Hn Hsn. eapply cleaning_synth_stays; eauto.
Qed.

Lemma cleaned_lift (h h1 h2 : heap) a :
  consistent h1 → cleaning h h1 → cleaning h1 h2 →
  cleaned h1 h2 a → cleaned h h2 a.
Proof.
  intros Hh1 Hc1 Hc2 Hcl.
  pose proof Hcl as (x1 & Hx1 & Hs1 & Ha2 & Hsynths).
  assert (group_at h a) as (x & Hx & Hs)%group_at_lookup.
  { apply (cleaning_group_at h h1); [done|]. apply group_at_lookup. eauto. }
  destruct (cleaning_group _ _ Hc1 _ _ Hx Hs) as [Ha1|Hcl1].
  - assert (x1 = x) as -> by congruence.
    exists x. split_and!; try done.
    + by rewrite Ha2, (without_synths_cleaning h h1).
    + intros s n Hin Hn Hsn.
      destruct (consistent_child _ _ _ _ Hh1 Hx1 Hin) as (n1 & Hn1 & Hp1).
      destruct (cleaning_synth _ _ Hc1 _ _ Hn Hsn) as [Hs1'|[_ Hs1']].
      * eapply Hsynths; eauto.
      * rewrite Hn1 in Hs1'. symmetry in Hs1'.
        apply after_clear_parent_Some in Hs1'. subst n1. by simpl in Hp1.
  - by eapply cleaned_stays.
Qed.

Lemma cleaning_trans (h h1 h2 : heap) :
  consistent h1 → cleaning h h1 → cleaning h1 h2 → cleaning h h2.
Proof.
  intros Hh1 Hc1 Hc2. split.
  - intros a x Hx Hs.
    destruct (cleaning_group _ _ Hc1 _ _ Hx Hs) as [Ha1|Hcl1].
    + destruct (cleaning_group _ _ Hc2 _ _ Ha1 Hs) as [Ha2|Hcl2]; [by left|].
      right. by eapply cleaned_lift.
    + right. by eapply cleaned_stays.
  - intros s n Hn Hs.
    destruct (cleaning_synth _ _ Hc1 _ _ Hn Hs) as [Hs1|[Hp Hs1]].
    + by apply (cleaning_synth _ _ Hc2).
    + right. split; [done|]. by eapply cleaning_synth_stays.
  - intros a Ha. apply (cleaning_fresh _ _ Hc2). by apply (cleaning_fresh _ _ Hc1).
Qed.

Lemma cleaning_children (h h' : heap) a x' :
  cleaning h h' → h' !! a = Some x' →
  ∃ x, h !! a = Some x ∧ child_nodes x' ⊆ child_nodes x.
Proof.
  intros Hc Hx'. destruct (h !! a) as [x|] eqn:Hx.
  - exists x. split; [done|]. destruct (synth_ x) eqn:Hs.
    + destruct (cleaning_synth _ _ Hc _ _ Hx Hs) as [Hd|[_ Hd]].
      * by assert (x' = x) as -> by congruence.
      * rewrite Hx' in Hd. symmetry in Hd.
        apply after_clear_parent_Some in Hd. by subst x'.
    + destruct (cleaning_group _ _ Hc _ _ Hx Hs)
        as [Hd|(y & Hy & _ & Hd & _)].
      * by assert (x' = x) as -> by congruence.
      * assert (y = x) as -> by congruence.
        assert (x' = without_synths h x) as -> by congruence.
        simpl. intros d Hd'%elem_of_groups_of. tauto.
  - rewrite (cleaning_fresh _ _ Hc _ Hx) in Hx'. done.
Qed.

Lemma cleaning_ranked (h h' : heap) rank :
  cleaning h h' → ranked h rank → ranked h' rank.
Proof.
  intros Hc Hr a x' Hx'. simpl.
  destruct (cleaning_children _ _ _ _ Hc Hx') as (x & Hx & Hsub).
  apply Forall_forall. intros c Hin.
  by apply (ranked_child h rank a x c Hr Hx), Hsub.
Qed.

Lemma subgroup_cleaning (h h' : heap) this a :
  cleaning h h' → subgroup h this a → subgroup h' this a.
Proof.
  intros Hc. induction 1 as [this|this x c a Hx Hs Hin Hg _ IH]; [constructor|].
  assert (group_at h' c) as Hg' by by apply (cleaning_group_at h h').
  destruct (cleaning_group _ _ Hc _ _ Hx Hs) as [Hd|(y & Hy & _ & Hd & _)].
  - by eapply subgroup_below.
  - assert (y = x) as -> by congruence.
    eapply subgroup_below; [exact Hd|done| |done|done].
    simpl. apply elem_of_groups_of. done.
Qed.

Lemma erase_middle c (kept l : list addr) :
  c ∉ kept → erase c (kept ++ c :: l) = kept ++ l.
Proof.
  induction kept as [|x kept IH]; intros Hc; simpl.
  - by rewrite decide_True.
  - rewrite decide_False by set_solver. f_equal. apply IH. set_solver.
Qed.

Lemma filter_ext_elem {A} (P Q : A → Prop) `{∀ x, Decision (P x)}
    `{∀ x, Decision (Q x)} (l : list A) :
  (∀ x, x ∈ l → P x ↔ Q x) → filter P l = filter Q l.
Proof.
  induction l as [|x l IH]; intros HPQ; [done|].
  rewrite !filter_cons, IH by (intros; apply HPQ; set_solver).
  destruct (decide (P x)) as [HP|HP], (decide (Q x)) as [HQ|HQ]; try done;
    exfalso; apply (HPQ x) in HP || apply (HPQ x) in HQ; set_solver.
Qed.

Lemma kind_count_none (h : heap) s l :
  (∀ d, d ∈ l → synth_ <$> h !! d = Some (negb s)) → kind_count h s l = 0%Z.
Proof.
  induction l as [|d l IH]; intros Hl; [done|].
  rewrite kind_count_cons, IH by (intros; apply Hl; set_solver).
  rewrite decide_False; [done|]. rewrite (Hl d) by set_solver.
  by destruct s.
Qed.

Lemma node_without_synths (h : heap) x y :
  same_base x y →
  child_nodes y = groups_of h (child_nodes x) →
  child_synths_ y = 0%Z →
  child_groups_ y = child_groups_ x →
  y = without_synths h x.
Proof.
  unfold same_base, without_synths. destruct x, y. simpl.
  intros (-> & -> & -> & -> & ->) -> -> ->. done.
Qed.

Lemma remove_synths_loop this (l : list addr) :
  ∀ (kept : list addr) (h : heap) g,
    consistent h → h !! this = Some g → synth_ g = false →
    child_nodes g = kept ++ l → (∀ c, c ∈ kept → group_at h c) →
    ∃ h' g',
      for_each (λ c h, b ← is_synth h c;
                       if b : bool
                       then erase_and_dispose clear_parent this c h
                       else Ok h) l h = Ok h' ∧
      consistent h' ∧
      h' !! this = Some g' ∧
      child_nodes g' = kept ++ groups_of h l ∧
      same_base g g' ∧ child_groups_ g' = child_groups_ g ∧
      (∀ s n, s ∈ l → h !! s = Some n → synth_ n = true →
         h' !! s = after_clear_parent n) ∧
      (∀ b, b ≠ this → ¬ (b ∈ l ∧ synth_at h b) → h' !! b = h !! b).
Proof.
  induction l as [|c l IH]; intros kept h g Hh Hg Hs Hl Hkept.
  { exists h, g. simpl. split_and!; [done..|apply same_base_refl|done| |done].
    intros s n Hin. by apply elem_of_nil in Hin. }
  assert (c ∈ child_nodes g) as Hc by (rewrite Hl; set_solver).
  pose proof (consistent_NoDup _ _ _ Hh Hg) as Hnd. rewrite Hl in Hnd.
  apply NoDup_app in Hnd as (_ & Hkl & Hnd).
  apply NoDup_cons in Hnd as [Hcl Hnd].
  destruct (consistent_child _ _ _ _ Hh Hg Hc) as (n & Hn & Hp).
  assert (is_synth h c = Ok (synth_ n)) as Hsynth
    by (unfold is_synth; by rewrite (load_Some _ _ _ Hn)).
  destruct (synth_ n) eqn:Hsn.
  - assert (c ≠ this) as Hne by (intros ->; congruence).
    assert (c ∉ kept) as Hck by (intros Hin; apply (Hkl c Hin); set_solver).
    destruct (erase_and_dispose_view this c h g n Hg Hn Hp) as (h1 & Hok & Hview).
    rewrite Hsn in Hview.
    pose proof (detach_view_consistent this c h h1 g n Hh Hg Hc Hn) as Hh1.
    rewrite Hsn in Hh1. specialize (Hh1 Hview).
    assert (∀ b, b ≠ c → h1 !! b = detach_view this c true b <$> h !! b)
      as Hview1.
    { intros b Hb. rewrite Hview. by rewrite decide_False by (intros [? _]; done). }
    assert (∀ b, b ≠ c → b ≠ this → h1 !! b = h !! b) as Hframe.
    { intros b Hb Hb'. rewrite Hview1 by done. destruct (h !! b); [|done].
      simpl. by rewrite detach_view_other. }
    assert (∀ b, b ≠ c → group_at h1 b ↔ group_at h b) as Hkind.
    { intros b Hb. unfold group_at. rewrite Hview1 by done.
      destruct (h !! b) as [y|]; [|done]. simpl.
      by destruct (detach_view_fields this c true b y) as (-> & _). }
    set (g1 := detach_view this c true this g).
    assert (h1 !! this = Some g1) as Hg1 by (rewrite Hview1, Hg; done).
    destruct (detach_view_fields this c true this g)
      as (Es & El & _ & _ & _ & Ecg & _).
    rewrite decide_True in El by done. rewrite decide_True in Ecg by done.
    assert (child_nodes g1 = kept ++ l) as Hl1.
    { subst g1. rewrite El, Hl. by apply erase_middle. }
    destruct (IH kept h1 g1 Hh1 Hg1 ltac:(subst g1; congruence) Hl1)
      as (h' & g' & Hloop & Hh' & Hg' & Hl' & Hbase & Hcg' & Hsynths & Hothers).
    { intros d Hd. apply Hkind; [intros ->; done | by apply Hkept]. }
    exists h', g'. split_and!; try done.
    + simpl. rewrite Hsynth. simpl. rewrite Hok. done.
    + rewrite Hl'. f_equal. unfold groups_of.
      rewrite filter_cons_False.
      * apply filter_ext_elem. intros d Hd. apply Hkind. by intros ->.
      * unfold group_at. rewrite Hn. simpl. congruence.
    + eapply same_base_trans; [|done]. subst g1.
      by apply detach_view_same_base.
    + rewrite Hcg'. subst g1. done.
    + intros s m Hin Hm Hsm. apply elem_of_cons in Hin as [->|Hin].
      * assert (m = n) as -> by congruence.
        rewrite Hothers; [|done|].
        -- rewrite Hview, Hn. simpl. unfold after_clear_parent.
           destruct (decide (use_count_ n = 1%Z)).
           ++ by rewrite decide_True.
           ++ rewrite decide_False by (intros [_ ?]; done).
              by rewrite detach_view_child.
        -- intros [? _]. done.
      * assert (s ≠ c) by (intros ->; done).
        assert (s ≠ this) by (intros ->; congruence).
        apply Hsynths; [done| |done]. by rewrite Hframe.
    + intros b Hb Hnot.
      assert (b ≠ c).
      { intros ->. apply Hnot. split; [set_solver|].
        apply synth_at_lookup. eauto. }
      rewrite Hothers; [by apply Hframe|done|].
      intros [Hin Hsb]. apply Hnot. split; [set_solver|].
      unfold synth_at in *. by rewrite Hframe in Hsb.
  - assert (group_at h c) as Hgc by (apply group_at_lookup; eauto).
    destruct (IH (kept ++ [c]) h g Hh Hg Hs)
      as (h' & g' & Hloop & Hh' & Hg' & Hl' & Hbase & Hcg' & Hsynths & Hothers).
    { by rewrite <- app_assoc. }
    { intros d [Hd|Hd%list_elem_of_singleton]%elem_of_app; [auto|by subst]. }
    exists h', g'. split_and!; try done.
    + simpl. rewrite Hsynth. done.
    + rewrite Hl', <- app_assoc. simpl. f_equal. unfold groups_of.
      by rewrite filter_cons_True.
    + intros s m Hin Hm Hsm. apply elem_of_cons in Hin as [->|Hin]; [|eauto].
      congruence.
    + intros b Hb Hnot. apply Hothers; [done|].
      intros [Hin Hsb]. apply Hnot. split; [set_solver|done].
Qed.

Lemma remove_synths this (h : heap) g :
  consistent h → h !! this = Some g → synth_ g = false →
  ∃ h',
    remove_and_dispose_if is_synth clear_parent this h = Ok h' ∧
    consistent h' ∧ cleaned h h' this ∧ cleaning h h'.
Proof.
  intros Hh Hg Hs.
  destruct (remove_synths_loop this (child_nodes g) [] h g Hh Hg Hs eq_refl)
    as (h' & g' & Hloop & Hh' & Hg' & Hl' & Hbase & Hcg' & Hsynths & Hothers).
  { intros c Hc. by apply elem_of_nil in Hc. }
  simpl in Hl'.
  assert (g' = without_synths h g) as ->.
  { apply node_without_synths; try done.
    destruct (Hh' _ _ Hg') as (_ & _ & Hcs & _). rewrite Hcs, Hl'.
    rewrite kind_count_none; [done|].
    intros d [Hd Hin]%elem_of_groups_of. simpl.
    destruct (decide (d = this)) as [->|Hne].
    - rewrite Hg'. simpl. destruct Hbase as (_ & -> & _). by rewrite Hs.
    - rewrite Hothers; [done..|]. intros [_ Hsd].
      unfold group_at, synth_at in *. congruence. }
  assert (cleaned h h' this) as Hcl by (exists g; done).
  exists h'. split_and!; try done.
  - unfold remove_and_dispose_if. by rewrite (load_Some _ _ _ Hg).
  - split.
    + intros a x Hx Hsx. destruct (decide (a = this)) as [->|Hne]; [by right|].
      left. rewrite Hothers; [done..|]. intros [_ Hsa].
      unfold synth_at in Hsa. rewrite Hx in Hsa. simpl in Hsa. congruence.
    + intros s n Hn Hsn.
      assert (s ≠ this) by (intros ->; congruence).
      destruct (decide (s ∈ child_nodes g)) as [Hin|Hnin].
      * right. split; [|by eapply Hsynths].
        destruct (consistent_child _ _ _ _ Hh Hg Hin) as (n' & Hn' & Hp').
        assert (n' = n) as -> by congruence. by rewrite Hp'.
      * left. rewrite Hothers; [done..|]. by intros [? _].
    + intros a Ha. assert (a ≠ this) by (intros ->; congruence).
      rewrite Hothers; [done..|]. intros [_ Hsa].
      unfold synth_at in Hsa. by rewrite Ha in Hsa.
Qed.

Lemma free_synths_children_loop (rank : addr → nat) (fuel : nat) (h : heap) :
  (∀ this hi g,
     consistent hi → ranked hi rank → hi !! this = Some g → synth_ g = false →
     rank this < fuel →
     ∃ h', free_synths_deep fuel this hi = Ok h' ∧ consistent h' ∧
           cleaning hi h' ∧ ∀ a, subgroup hi this a → cleaned hi h' a) →
  ranked h rank →
  ∀ (l : list addr) (hi : heap),
    consistent hi → cleaning h hi →
    (∀ c, c ∈ l → group_at h c ∧ rank c < fuel) →
    ∃ h', for_each (free_synths_deep fuel) l hi = Ok h' ∧ consistent h' ∧
          cleaning h h' ∧ cleaning hi h' ∧
          ∀ c a, c ∈ l → subgroup h c a → cleaned h h' a.
Proof.
  intros Hrec Hranked. induction l as [|c l IH]; intros hi Hhi Hci Hl.
  { exists hi. simpl. split_and!; [done..|apply cleaning_refl|].
    intros c a Hc. by apply elem_of_nil in Hc. }
  destruct (Hl c) as [Hgc Hrc]; [set_solver|].
  assert (group_at hi c) as (y & Hy & Hsy)%group_at_lookup
    by by apply (cleaning_group_at h hi).
  destruct (Hrec c hi y Hhi (cleaning_ranked _ _ _ Hci Hranked) Hy Hsy Hrc)
    as (h2 & Hrun & Hh2 & Hc2 & Hsub).
  pose proof (cleaning_trans _ _ _ Hhi Hci Hc2) as Hc02.
  destruct (IH h2 Hh2 Hc02) as (h' & Hloop & Hh' & Hc' & Hc2' & Hrest);
    [intros; apply Hl; set_solver|].
  exists h'. split_and!; try done.
  - simpl. rewrite Hrun. done.
  - by apply (cleaning_trans hi h2 h').
  - intros d a [->|Hd]%elem_of_cons Ha; [|eauto].
    apply (cleaned_stays h h2 h'); [done..|].
    apply (cleaned_lift h hi h2); [done..|].
    apply Hsub. by apply (subgroup_cleaning h hi).
Qed.

Lemma free_synths_deep_cleans (rank : addr → nat) (fuel : nat) :
  ∀ this (h : heap) g,
    consistent h → ranked h rank → h !! this = Some g → synth_ g = false →
    rank this < fuel →
    ∃ h', free_synths_deep fuel this h = Ok h' ∧ consistent h' ∧
          cleaning h h' ∧ ∀ a, subgroup h this a → cleaned h h' a.
Proof.
  induction fuel as [|fuel IH]; intros this h g Hh Hranked Hg Hs Hlt; [lia|].
  destruct (remove_synths this h g Hh Hg Hs) as (h1 & Hstep & Hh1 & Hcl1 & Hc1).
  pose proof Hcl1 as (g0 & Hg0 & _ & Hg1 & _).
  assert (g0 = g) as -> by congruence.
  destruct (free_synths_children_loop rank fuel h IH Hranked
              (groups_of h (child_nodes g)) h1 Hh1 Hc1)
    as (h' & Hloop & Hh' & Hc' & Hc1' & Hbelow).
  { intros c [Hgc Hin]%elem_of_groups_of. split; [done|].
    pose proof (ranked_child _ _ _ _ _ Hranked Hg Hin). lia. }
  pose proof (cleaned_stays h h1 h' this Hc1 Hc1' Hcl1) as Hcl'.
  exists h'. split_and!; try done.
  - simpl. rewrite Hstep. simpl. rewrite (load_Some _ _ _ Hg1). simpl.
    rewrite Hloop. simpl.
    destruct Hcl' as (g0 & Hg0' & _ & Hg' & _).
    assert (g0 = g) as -> by congruence.
    rewrite (load_Some _ _ _ Hg'). done.
  - intros a Ha. inversion Ha as [|? x c ? Hx Hsx Hin Hgc Hsub]; subst; [done|].
    assert (x = g) as -> by congruence.
    apply (Hbelow c); [|done]. by apply elem_of_groups_of.
Qed.

Lemma free_synths_children_returned (fuel : nat) (h : heap) :
  (∀ this hi g h',
     consistent hi → hi !! this = Some g → synth_ g = false →
     free_synths_deep fuel this hi = Ok h' →
     consistent h' ∧ cleaning hi h' ∧
     ∀ a, subgroup hi this a → cleaned hi h' a) →
  ∀ (l : list addr) (hi h' : heap),
    consistent hi → cleaning h hi → (∀ c, c ∈ l → group_at h c) →
    for_each (free_synths_deep fuel) l hi = Ok h' →
    consistent h' ∧ cleaning h h' ∧ cleaning hi h' ∧
    ∀ c a, c ∈ l → subgroup h c a → cleaned h h' a.
Proof.
  intros Hrec. induction l as [|c l IH]; intros hi h' Hhi Hci Hl Hrun.
  { simpl in Hrun. injection Hrun as <-.
    split_and!; [done..|apply cleaning_refl|].
    intros c a Hc. by apply elem_of_nil in Hc. }
  simpl in Hrun. apply bind_Ok in Hrun as (h2 & Hcall & Hrun).
  assert (group_at hi c) as (y & Hy & Hsy)%group_at_lookup
    by (apply (cleaning_group_at h hi); [done|]; apply Hl; set_solver).
  destruct (Hrec c hi y h2 Hhi Hy Hsy Hcall) as (Hh2 & Hc2 & Hsub).
  pose proof (cleaning_trans _ _ _ Hhi Hci Hc2) as Hc02.
  destruct (IH h2 h' Hh2 Hc02) as (Hh' & Hc' & Hc2' & Hrest);
    [intros; apply Hl; set_solver|done|].
  split_and!; try done.
  - by apply (cleaning_trans hi h2 h').
  - intros d a [->|Hd]%elem_of_cons Ha; [|eauto].
    apply (cleaned_stays h h2 h'); [done..|].
    apply (cleaned_lift h hi h2); [done..|].
    apply Hsub. by apply (subgroup_cleaning h hi).
Qed.

Lemma free_synths_deep_returned (fuel : nat) :
  ∀ this (h : heap) g h',
    consistent h → h !! this = Some g → synth_ g = false →
    free_synths_deep fuel this h = Ok h' →
    consistent h' ∧ cleaning h h' ∧ ∀ a, subgroup h this a → cleaned h h' a.
Proof.
  induction fuel as [|fuel IH]; intros this h g h' Hh Hg Hs Hrun; [done|].
  destruct (remove_synths this h g Hh Hg Hs) as (h1 & Hstep & Hh1 & Hcl1 & Hc1).
  pose proof Hcl1 as (g0 & Hg0 & _ & Hg1 & _).
  assert (g0 = g) as -> by congruence.
  simpl in Hrun. rewrite Hstep in Hrun. simpl in Hrun.
  rewrite (load_Some _ _ _ Hg1) in Hrun. simpl in Hrun.
  apply bind_Ok in Hrun as (h2 & Hloop & Hrun).
  apply bind_Ok in Hrun as (g2 & _ & Hrun).
  apply bind_Ok in Hrun as ([] & _ & [= <-]).
  destruct (free_synths_children_returned fuel h IH
              (groups_of h (child_nodes g)) h1 h2 Hh1 Hc1)
    as (Hh2 & Hc2 & Hc12 & Hbelow); [|done|].
  { by intros c [Hgc _]%elem_of_groups_of. }
  split_and!; try done.
  intros a Ha. inversion Ha as [|? x c ? Hx Hsx Hin Hgc Hsub]; subst.
  - by apply (cleaned_stays h h1 h2).
  - assert (x = g) as -> by congruence.
    apply (Hbelow c); [|done]. by apply elem_of_groups_of.
Qed.

Lemma cleaning_synths_freed (h h' : heap) this :
  consistent h' → cleaning h h' →
  (∀ a, subgroup h this a → cleaned h h' a) →
  synths_freed h this h'.
Proof.
  intros Hh' Hc Hsub. split_and!; try done.
  - intros a Ha. destruct (Hsub a Ha) as (x & Hx & _ & Hx' & Hsynths).
    exists x, (without_synths h x). split_and!; done.
  - intros a x Hx Hsx.
    destruct (cleaning_group _ _ Hc _ _ Hx Hsx) as [Hx'|(y & Hy & _ & Hx' & _)].
    + exists x. split_and!; [done|apply same_base_refl|done|].
      by apply groups_of_cleaning.
    + assert (y = x) as -> by congruence.
      exists (without_synths h x). split_and!; [done| |done|].
      * apply without_synths_fields.
      * simpl. rewrite (groups_of_cleaning h h') by done.
        apply groups_of_groups_of.
Qed.

(** C7: for every group of a consistent store, whenever [free_synths_deep]
    returns, every group in the subtree, the receiver included, keeps exactly
    its group children and has a synth counter of zero, and each synth that
    was its child has gone through [clear_parent] (parent pointer cleared, one
    reference released, gone from the store if that was the last one); no
    group of the store is removed or changes its identity, parent, reference
    count, group counter or its list of group children, and the store is
    consistent again ([synths_freed]).  And the call does return when the
    child lists are well founded. *)
Theorem free_synths_deep_removes_synths (h : heap) (this : addr) (g : node) :
  consistent h →
  h !! this = Some g → synth_ g = false →
  (∀ fuel h', free_synths_deep fuel this h = Ok h' → synths_freed h this h') ∧
  (∀ rank fuel, ranked h rank → rank this < fuel →
     ∃ h', free_synths_deep fuel this h = Ok h').
Proof.
  intros Hh Hg Hs. split.
  - intros fuel h' Hrun.
    destruct (free_synths_deep_returned fuel this h g h' Hh Hg Hs Hrun)
      as (Hh' & Hc & Hsub).
    by apply cleaning_synths_freed.
  - intros rank fuel Hranked Hlt.
    destruct (free_synths_deep_cleans rank fuel this h g Hh Hranked Hg Hs Hlt)
      as (h' & Hrun & _). eauto.
Qed.

Lemma free_synths_deep_removes_synths_witness :
  (∀ fuel h', free_synths_deep fuel 1 sample_after_requests = Ok h' →
     synths_freed sample_after_requests 1 h') ∧
  (∀ rank fuel, ranked sample_after_requests rank → rank 1 < fuel →
     ∃ h', free_synths_deep fuel 1 sample_after_requests = Ok h').
Proof.
  apply (free_synths_deep_removes_synths sample_after_requests 1
           (Node 1 false None 1 [12; 2] false 1 1)).
  - by_computation.
  - vm_compute. reflexivity.
  - reflexivity.
Defined.

Example free_synths_deep_sample :
  ∃ h', free_synths_deep 4 1 sample_after_requests = Ok h' ∧
        h' !! 1 = Some (Node 1 false None 1 [2] false 0 1) ∧
        h' !! 12 = Some (Node 12 true None 1 [] false 0 0) ∧
        ranked sample_after_requests sample_rank.
Proof.
  eexists. split; [by vm_compute|]. split_and!; [by vm_compute..|].
  by_computation.
Qed.

(** * Further properties *)

(** ** What [has_synth_children] answers *)

Lemma has_synth_children_unfold fuel (h : heap) this :
  has_synth_children (S fuel) h this =
    (g ← load h this; scan_synths (has_synth_children fuel h) h (child_nodes g)).
Proof.
  simpl. destruct (load h this) as [g|e]; [simpl|done].
  induction (child_nodes g) as [|c l IH]; [done|]. simpl.
  destruct (load h c) as [n|e]; [simpl|done].
  destruct (synth_ n); [done|].
  destruct (has_synth_children fuel h c) as [[]|e]; simpl; done.
Qed.

Lemma consistent_closed (h : heap) : consistent h → closed h.
Proof.
  intros Hh a g Hg. simpl. apply Forall_forall. intros c Hc.
  destruct (consistent_child _ _ _ _ Hh Hg Hc) as (n & -> & _). eauto.
Qed.

Lemma subgroup_inv (h : heap) this a :
  subgroup h this a →
  a = this ∨
  ∃ x c, h !! this = Some x ∧ synth_ x = false ∧ c ∈ child_nodes x ∧
         group_at h c ∧ subgroup h c a.
Proof. destruct 1; [by left|right; eauto 10]. Qed.

Lemma synth_below_here (h : heap) this x s :
  h !! this = Some x → s ∈ child_nodes x → synth_at h s → synth_below h this.
Proof. intros. exists this, x, s. split_and!; [constructor|done..]. Qed.

Lemma synth_below_child (h : heap) this x c :
  h !! this = Some x → synth_ x = false → c ∈ child_nodes x → group_at h c →
  synth_below h c → synth_below h this.
Proof.
  intros Hx Hs Hc Hg (a & y & s & Ha & Hy & Hin & Hsy).
  exists a, y, s. split_and!; [|done..]. by eapply subgroup_below.
Qed.

Lemma synth_below_inv (h : heap) this x :
  h !! this = Some x → synth_below h this →
  (∃ s, s ∈ child_nodes x ∧ synth_at h s) ∨
  (∃ c, c ∈ child_nodes x ∧ group_at h c ∧ synth_below h c).
Proof.
  intros Hx (a & y & s & Ha & Hy & Hin & Hsy).
  apply subgroup_inv in Ha as [->|(x' & c & Hx' & _ & Hc & Hg & Ha)].
  - left. exists s. by assert (y = x) as -> by congruence.
  - right. exists c. assert (x' = x) as -> by congruence.
    split_and!; [done..|]. by exists a, y, s.
Qed.

Lemma scan_synths_answer (rec : addr → result bool) (h : heap)
    (Q : addr → Prop) (l : list addr) :
  (∀ c, c ∈ l → is_Some (h !! c)) →
  (∀ c, c ∈ l → group_at h c → ∃ b, rec c = Ok b ∧ (b = true ↔ Q c)) →
  ∃ b, scan_synths rec h l = Ok b ∧
       (b = true ↔ ∃ c, c ∈ l ∧ (synth_at h c ∨ (group_at h c ∧ Q c))).
Proof.
  induction l as [|c l IH]; intros Hlive Hrec.
  { exists false. split; [done|]. split; [done|].
    intros (c & Hc & _). by apply elem_of_nil in Hc. }
  destruct (Hlive c) as [n Hn]; [set_solver|].
  simpl. rewrite (load_Some _ _ _ Hn). simpl.
  destruct (synth_ n) eqn:Hs.
  { exists true. split; [done|]. split; [|done]. intros _.
    exists c. split; [set_solver|]. left. apply synth_at_lookup. eauto. }
  assert (group_at h c) as Hg by (apply group_at_lookup; eauto).
  destruct (Hrec c) as (b & -> & Hb); [set_solver|done|]. simpl.
  destruct b.
  { exists true. split; [done|]. split; [|done]. intros _.
    exists c. split; [set_solver|]. right. split; [done|]. by apply Hb. }
  destruct IH as (b & -> & Hl);
    [intros; apply Hlive; set_solver|intros; apply Hrec; set_solver|].
  exists b. split; [done|]. rewrite Hl. split.
  - intros (d & Hd & HQ). exists d. split; [set_solver|done].
  - intros (d & [->|Hd]%elem_of_cons & HQ); [|eauto].
    destruct HQ as [Hsy|[_ HQ]].
    + unfold synth_at in Hsy. rewrite Hn in Hsy. simpl in Hsy. congruence.
    + apply Hb in HQ. done.
Qed.

Lemma has_synth_children_answer (h : heap) (rank : addr → nat) :
  closed h → ranked h rank →
  ∀ fuel this g,
    h !! this = Some g → synth_ g = false → rank this < fuel →
    ∃ b, has_synth_children fuel h this = Ok b ∧
         (b = true ↔ synth_below h this).
Proof.
  intros Hclosed Hranked.
  induction fuel as [|fuel IH]; intros this g Hg Hs Hlt; [lia|].
  rewrite has_synth_children_unfold, (load_Some _ _ _ Hg). simpl.
  destruct (scan_synths_answer (has_synth_children fuel h) h (synth_below h)
              (child_nodes g)) as (b & Hscan & Hb).
  - intros c Hc. by eapply closed_child.
  - intros c Hc (n & Hn & Hsn)%group_at_lookup. apply (IH c n); [done..|].
    pose proof (ranked_child _ _ _ _ _ Hranked Hg Hc). lia.
  - exists b. split; [done|]. rewrite Hb. split.
    + intros (c & Hc & [Hsy|[Hgc Hbelow]]).
      * by eapply synth_below_here.
      * by eapply synth_below_child.
    + intros [(s & Hin & Hsy)|(c & Hc & Hgc & Hbelow)]%(synth_below_inv _ _ g);
        [eauto|eauto 6|done].
Qed.

(** X1: on a closed store without cycles, [has_synth_children] of a group
    returns, and it returns true exactly when the group or some group below
    it has a synth among its children. *)
Theorem has_synth_children_iff (h : heap) (rank : addr → nat)
    (this : addr) (g : node) (fuel : nat) :
  closed h → ranked h rank →
  h !! this = Some g → synth_ g = false → rank this < fuel →
  ∃ b, has_synth_children fuel h this = Ok b ∧
       (b = true ↔ synth_below h this).
Proof. intros. by eapply has_synth_children_answer. Qed.

Lemma has_synth_children_iff_witness :
  ∃ b, has_synth_children 4 sample_heap 1 = Ok b ∧
       (b = true ↔ synth_below sample_heap 1).
Proof.
  apply (has_synth_children_iff sample_heap sample_rank 1
           (Node 1 false None 1 [10; 2] false 1 1) 4).
  - by_computation.
  - by_computation.
  - vm_compute. reflexivity.
  - reflexivity.
  - vm_compute. lia.
Defined.

(** ** [free_synths_deep] where there is no synth *)

Lemma scan_synths_false (rec : addr → result bool) (h : heap) (l : list addr) :
  scan_synths rec h l = Ok false →
  ∀ c, c ∈ l → ∃ n, h !! c = Some n ∧ synth_ n = false ∧ rec c = Ok false.
Proof.
  induction l as [|c l IH]; intros Hscan d Hd; [by apply elem_of_nil in Hd|].
  simpl in Hscan. apply bind_Ok in Hscan as (n & Hn%load_Ok & Hscan).
  destruct (synth_ n) eqn:Hs; [done|].
  apply bind_Ok in Hscan as (b & Hb & Hscan). destruct b; [done|].
  apply elem_of_cons in Hd as [->|Hd]; [eauto|auto].
Qed.

Lemma for_each_unchanged (body : addr → heap → result heap) (l : list addr)
    (h : heap) :
  (∀ c, c ∈ l → body c h = Ok h) → for_each body l h = Ok h.
Proof.
  induction l as [|c l IH]; intros Hbody; [done|]. simpl.
  rewrite Hbody by set_solver. simpl. apply IH. intros. apply Hbody. set_solver.
Qed.

Lemma free_synths_deep_nothing_to_free (h : heap) :
  consistent h →
  ∀ fuel this,
    has_synth_children fuel h this = Ok false →
    free_synths_deep fuel this h = Ok h.
Proof.
  intros Hh. induction fuel as [|fuel IH]; intros this Hno; [done|].
  rewrite has_synth_children_unfold in Hno.
  apply bind_Ok in Hno as (g & Hg%load_Ok & Hscan).
  pose proof (scan_synths_false _ _ _ Hscan) as Hchildren.
  simpl. unfold remove_and_dispose_if. rewrite (load_Some _ _ _ Hg). simpl.
  rewrite for_each_unchanged; simpl.
  - rewrite (load_Some _ _ _ Hg). simpl.
    rewrite for_each_unchanged; simpl.
    + rewrite (load_Some _ _ _ Hg). simpl.
      destruct (Hh _ _ Hg) as (_ & _ & Hcs & _). rewrite Hcs.
      rewrite kind_count_none; [done|].
      intros d Hd. destruct (Hchildren d Hd) as (n & Hn & Hsn & _).
      rewrite Hn. simpl. by rewrite Hsn.
    + intros c Hc. destruct (Hchildren c Hc) as (_ & _ & _ & Hrec). auto.
  - intros c Hc. destruct (Hchildren c Hc) as (n & Hn & Hs & _).
    unfold is_synth. rewrite (load_Some _ _ _ Hn). simpl. by rewrite Hs.
Qed.

(** X2: on a consistent store, [free_synths_deep] of a group for which
    [has_synth_children] returns false returns the store unchanged. *)
Theorem free_synths_deep_without_synths (h : heap) (fuel : nat) (this : addr) :
  consistent h →
  has_synth_children fuel h this = Ok false →
  free_synths_deep fuel this h = Ok h.
Proof. intros. by apply free_synths_deep_nothing_to_free. Qed.

Lemma free_synths_deep_without_synths_witness :
  free_synths_deep 3 2 sample_heap = Ok sample_heap.
Proof.
  apply (free_synths_deep_without_synths sample_heap 3 2).
  - by_computation.
  - vm_compute. reflexivity.
Defined.

(** ** The state after [free_synths_deep] *)

Lemma subgroup_before_cleaning (h h' : heap) this a :
  cleaning h h' → subgroup h' this a → subgroup h this a.
Proof.
  intros Hc. induction 1 as [this|this x' c a Hx' Hs' Hin Hg _ IH];
    [constructor|].
  destruct (cleaning_children _ _ _ _ Hc Hx') as (x & Hx & Hsub).
  assert (group_at h this) as (x0 & Hx0 & Hs)%group_at_lookup.
  { apply (cleaning_group_at h h'); [done|]. apply group_at_lookup. eauto. }
  assert (x0 = x) as -> by congruence.
  eapply subgroup_below; [done..|by apply Hsub| |done].
  by apply (cleaning_group_at h h').
Qed.

Lemma cleaned_no_synth_below (h h' : heap) this :
  cleaning h h' →
  (∀ a, subgroup h this a → cleaned h h' a) →
  ¬ synth_below h' this.
Proof.
  intros Hc Hsub (a & x' & s & Ha & Hx' & Hin & Hsy).
  apply (subgroup_before_cleaning h h') in Ha; [|done].
  destruct (Hsub a Ha) as (x & Hx & _ & Hcleaned & _).
  assert (x' = without_synths h x) as -> by congruence.
  simpl in Hin. apply elem_of_groups_of in Hin as [Hg _].
  apply (cleaning_group_at h h') in Hg; [|done].
  unfold group_at, synth_at in *. congruence.
Qed.

Lemma free_synths_deep_leaves_no_synth (h h' : heap) (rank : addr → nat)
    this g fuel :
  consistent h → ranked h rank →
  h !! this = Some g → synth_ g = false → rank this < fuel →
  free_synths_deep fuel this h = Ok h' →
  consistent h' ∧ has_synth_children fuel h' this = Ok false.
Proof.
  intros Hh Hranked Hg Hs Hlt Hrun.
  destruct (free_synths_deep_returned fuel this h g h' Hh Hg Hs Hrun)
    as (Hh' & Hc & Hsub).
  split; [done|].
  destruct (Hsub this (subgroup_self _ _)) as (g0 & Hg0 & _ & Hg' & _).
  assert (g0 = g) as -> by congruence.
  destruct (has_synth_children_answer h' rank (consistent_closed _ Hh')
              (cleaning_ranked _ _ _ Hc Hranked) fuel this _ Hg')
    as (b & Hb & Hiff); [exact Hs|done|].
  rewrite Hb. f_equal. destruct b; [|done].
  destruct (cleaned_no_synth_below h h' this Hc Hsub). by apply Hiff.
Qed.

(** X3: on a consistent store without cycles, once [free_synths_deep] of a
    group has returned, [has_synth_children] of that group returns false. *)
Theorem free_synths_deep_then_has_synth_children (h h' : heap)
    (rank : addr → nat) (this : addr) (g : node) (fuel : nat) :
  consistent h → ranked h rank →
  h !! this = Some g → synth_ g = false → rank this < fuel →
  free_synths_deep fuel this h = Ok h' →
  has_synth_children fuel h' this = Ok false.
Proof. intros. by eapply free_synths_deep_leaves_no_synth. Qed.

(** X4: on a consistent store without cycles, [free_synths_deep] is
    idempotent: a second call on the same group returns the store that the
    first call left. *)
Theorem free_synths_deep_idempotent (h h' : heap) (rank : addr → nat)
    (this : addr) (g : node) (fuel : nat) :
  consistent h → ranked h rank →
  h !! this = Some g → synth_ g = false → rank this < fuel →
  free_synths_deep fuel this h = Ok h' →
  free_synths_deep fuel this h' = Ok h'.
Proof.
  intros Hh Hranked Hg Hs Hlt Hrun.
  destruct (free_synths_deep_leaves_no_synth h h' rank this g fuel)
    as (Hh' & Hno); [done..|].
  by apply free_synths_deep_nothing_to_free.
Qed.

Lemma free_synths_deep_then_has_synth_children_witness :
  has_synth_children 4 sample_without_synths 1 = Ok false.
Proof.
  apply (free_synths_deep_then_has_synth_children sample_after_requests
           sample_without_synths sample_rank 1
           (Node 1 false None 1 [12; 2] false 1 1) 4).
  - by_computation.
  - by_computation.
  - vm_compute. reflexivity.
  - reflexivity.
  - vm_compute. lia.
  - vm_compute. reflexivity.
Defined.

Lemma free_synths_deep_idempotent_witness :
  free_synths_deep 4 1 sample_without_synths = Ok sample_without_synths.
Proof.
  apply (free_synths_deep_idempotent sample_after_requests
           sample_without_synths sample_rank 1
           (Node 1 false None 1 [12; 2] false 1 1) 4).
  - by_computation.
  - by_computation.
  - vm_compute. reflexivity.
  - reflexivity.
  - vm_compute. lia.
  - vm_compute. reflexivity.
Defined.

(** ** The tail count and the synths below a group *)

Lemma scan_tail_sign (rec : addr → result Z) (h : heap) (Q : addr → Prop)
    (l : list addr) v :
  (∀ c n w, c ∈ l → h !! c = Some n → synth_ n = false → rec c = Ok w →
     (0 ≤ w)%Z ∧ ((0 < w)%Z → Q c)) →
  scan_tail rec h l = Ok v →
  (0 ≤ v)%Z ∧
  ((0 < v)%Z → ∃ c, c ∈ l ∧ (synth_at h c ∨ (group_at h c ∧ Q c))).
Proof.
  induction l as [|c l IH]; intros Hrec Hscan; simpl in Hscan.
  { injection Hscan as <-. split; [done|lia]. }
  apply bind_Ok in Hscan as (n & Hn%load_Ok & Hscan).
  destruct (synth_ n) eqn:Hs.
  { injection Hscan as <-. split; [lia|]. intros _. exists c.
    split; [set_solver|]. left. apply synth_at_lookup. eauto. }
  destruct (empty_group n); simpl in Hscan.
  - destruct IH as [Hv Hpos]; [intros; eapply Hrec; eauto; set_solver|done|].
    split; [done|]. intros (d & Hd & HQ)%Hpos. exists d.
    split; [set_solver|done].
  - destruct (Hrec c n v) as [Hv Hpos]; [set_solver|done..|].
    split; [done|]. intros HQ%Hpos. exists c. split; [set_solver|].
    right. split; [|done]. apply group_at_lookup. eauto.
Qed.

Lemma sum_tails_sign (rec : addr → result Z) (h : heap) (Q : addr → Prop)
    (l : list addr) v :
  (∀ c n w, c ∈ l → h !! c = Some n → synth_ n = false → rec c = Ok w →
     (0 ≤ w)%Z ∧ ((0 < w)%Z → Q c)) →
  sum_tails rec h l = Ok v →
  (0 ≤ v)%Z ∧
  ((0 < v)%Z → ∃ c, c ∈ l ∧ (synth_at h c ∨ (group_at h c ∧ Q c))).
Proof.
  revert v. induction l as [|c l IH]; intros v Hrec Hsum; simpl in Hsum.
  { injection Hsum as <-. split; [done|lia]. }
  apply bind_Ok in Hsum as (n & Hn%load_Ok & Hsum).
  apply bind_Ok in Hsum as (w & Hw & Hsum).
  apply bind_Ok in Hsum as (s & Hs & [= <-]).
  destruct (IH s) as [Hs0 Hspos]; [intros; eapply Hrec; eauto; set_solver|done|].
  assert ((0 ≤ w)%Z ∧
          ((0 < w)%Z → synth_at h c ∨ (group_at h c ∧ Q c))) as [Hw0 Hwpos].
  { destruct (synth_ n) eqn:Hsn.
    - injection Hw as <-. split; [lia|]. intros _. left.
      apply synth_at_lookup. eauto.
    - destruct (Hrec c n w) as [Hw0 Hpos]; [set_solver|done..|].
      split; [done|]. intros HQ%Hpos. right. split; [|done].
      apply group_at_lookup. eauto. }
  split; [lia|]. intros Hpos.
  destruct (decide (0 < w)%Z) as [Hw1|Hw1].
  - exists c. split; [set_solver|auto].
  - destruct Hspos as (d & Hd & HQ); [lia|]. exists d. split; [set_solver|done].
Qed.

Lemma tail_nodes_sign (h : heap) :
  ∀ fuel this g v,
    h !! this = Some g → synth_ g = false →
    tail_nodes fuel h this = Ok v →
    (0 ≤ v)%Z ∧ ((0 < v)%Z → synth_below h this).
Proof.
  induction fuel as [|fuel IH]; intros this g v Hg Hs Hrun; [done|].
  simpl in Hrun. rewrite (load_Some _ _ _ Hg) in Hrun. simpl in Hrun.
  assert (∀ c n w, h !! c = Some n → synth_ n = false →
            tail_nodes fuel h c = Ok w →
            (0 ≤ w)%Z ∧ ((0 < w)%Z → synth_below h c)) as Hrec
    by (intros; by eapply IH).
  assert ((∃ c, c ∈ child_nodes g ∧
                (synth_at h c ∨ (group_at h c ∧ synth_below h c))) →
          synth_below h this) as Hup.
  { intros (c & Hc & [Hsy|[Hgc Hbelow]]).
    - eapply synth_below_here; eauto.
    - eapply synth_below_child; eauto. }
  destruct (is_parallel_ g).
  - unfold parallel_group_tail_nodes in Hrun.
    destruct (sum_tails_sign _ h (synth_below h) _ v
                (λ c n w _, Hrec c n w) Hrun) as [Hv Hpos].
    split; [done|]. auto.
  - unfold group_tail_nodes in Hrun. destruct (empty_group g).
    { injection Hrun as <-. split; [done|lia]. }
    destruct (scan_tail_sign _ h (synth_below h) _ v
                (λ c n w _, Hrec c n w) Hrun) as [Hv Hpos].
    split; [done|]. intros (c & Hc & HQ)%Hpos. apply Hup. exists c.
    split; [by apply elem_of_reverse|done].
Qed.

(** X5: on a closed store without cycles, the tail count of a group is never
    negative, and when it is positive the group has synth children:
    [has_synth_children] returns true. *)
Theorem positive_tail_has_synth_children (h : heap) (rank : addr → nat)
    (this : addr) (g : node) (fuel : nat) (v : Z) :
  closed h → ranked h rank →
  h !! this = Some g → synth_ g = false → rank this < fuel →
  tail_nodes fuel h this = Ok v →
  (0 ≤ v)%Z ∧ ((0 < v)%Z → has_synth_children fuel h this = Ok true).
Proof.
  intros Hclosed Hranked Hg Hs Hlt Hrun.
  destruct (tail_nodes_sign h fuel this g v Hg Hs Hrun) as [Hv Hpos].
  split; [done|]. intros Hbelow%Hpos.
  destruct (has_synth_children_answer h rank Hclosed Hranked fuel this g
              Hg Hs Hlt) as (b & Hb & Hiff).
  rewrite Hb. f_equal. by apply Hiff.
Qed.

Lemma positive_tail_has_synth_children_witness :
  (0 ≤ 2)%Z ∧ ((0 < 2)%Z → has_synth_children 2 parallel_heap 4 = Ok true).
Proof.
  apply (positive_tail_has_synth_children parallel_heap sample_rank 4
           (Node 4 false None 1 [11; 5; 12] true 2 1) 2 2).
  - by_computation.
  - by_computation.
  - vm_compute. reflexivity.
  - reflexivity.
  - vm_compute. lia.
  - vm_compute. reflexivity.
Defined.

(** X6: on a consistent store without cycles, once [free_synths_deep] of a
    group has returned, the tail count of that group is zero. *)
Theorem free_synths_deep_then_tail_nodes (h h' : heap) (rank : addr → nat)
    (this : addr) (g : node) (fuel : nat) :
  consistent h → ranked h rank →
  h !! this = Some g → synth_ g = false → rank this < fuel →
  free_synths_deep fuel this h = Ok h' →
  tail_nodes fuel h' this = Ok 0%Z.
Proof.
  intros Hh Hranked Hg Hs Hlt Hrun.
  destruct (free_synths_deep_returned fuel this h g h' Hh Hg Hs Hrun)
    as (Hh' & Hc & Hsub).
  destruct (Hsub this (subgroup_self _ _)) as (g0 & Hg0 & _ & Hg' & _).
  assert (g0 = g) as -> by congruence.
  destruct (tail_nodes_total h' rank (consistent_closed _ Hh')
              (cleaning_ranked _ _ _ Hc Hranked) fuel this Hlt)
    as [v Hv]; [eauto|].
  destruct (tail_nodes_sign h' fuel this _ v Hg' Hs Hv) as [Hv0 Hpos].
  rewrite Hv. f_equal.
  destruct (decide (0 < v)%Z) as [Hlt'|]; [|lia].
  destruct (cleaned_no_synth_below h h' this Hc Hsub). auto.
Qed.

Lemma free_synths_deep_then_tail_nodes_witness :
  tail_nodes 4 sample_without_synths 1 = Ok 0%Z.
Proof.
  apply (free_synths_deep_then_tail_nodes sample_after_requests
           sample_without_synths sample_rank 1
           (Node 1 false None 1 [12; 2] false 1 1) 4).
  - by_computation.
  - by_computation.
  - vm_compute. reflexivity.
  - reflexivity.
  - vm_compute. lia.
  - vm_compute. reflexivity.
Defined.

(** ** The tail count below sequential groups only *)

Lemma all_sequential_child (h : heap) this x c :
  h !! this = Some x → synth_ x = false → c ∈ child_nodes x → group_at h c →
  all_sequential h this → all_sequential h c.
Proof.
  intros Hx Hs Hc Hg Hall a y Ha Hy. apply (Hall a y); [|done].
  by eapply subgroup_below.
Qed.

Lemma all_sequential_store (h : heap) this :
  map_Forall (λ _ x, is_parallel_ x = false) h → all_sequential h this.
Proof. intros Hall a x _ Hx. by apply (Hall a x). Qed.

Lemma scan_tail_bit (rec : addr → result Z) (h : heap) (l : list addr) v :
  (∀ c n w, c ∈ l → h !! c = Some n → synth_ n = false → rec c = Ok w →
     w = 0%Z ∨ w = 1%Z) →
  scan_tail rec h l = Ok v → v = 0%Z ∨ v = 1%Z.
Proof.
  induction l as [|c l IH]; intros Hrec Hscan; simpl in Hscan.
  { injection Hscan as <-. by left. }
  apply bind_Ok in Hscan as (n & Hn%load_Ok & Hscan).
  destruct (synth_ n) eqn:Hs.
  { injection Hscan as <-. by right. }
  destruct (empty_group n); simpl in Hscan.
  - apply IH; [|done]. intros; eapply Hrec; eauto; set_solver.
  - apply (Hrec c n v); [set_solver|done..].
Qed.

Lemma sequential_tail_nodes_bit (h : heap) :
  ∀ fuel this g v,
    h !! this = Some g → synth_ g = false → all_sequential h this →
    tail_nodes fuel h this = Ok v → v = 0%Z ∨ v = 1%Z.
Proof.
  induction fuel as [|fuel IH]; intros this g v Hg Hs Hall Hrun; [done|].
  simpl in Hrun. rewrite (load_Some _ _ _ Hg) in Hrun. simpl in Hrun.
  rewrite (Hall this g (subgroup_self _ _) Hg) in Hrun.
  unfold group_tail_nodes in Hrun. destruct (empty_group g).
  { injection Hrun as <-. by left. }
  refine (scan_tail_bit _ _ _ _ _ Hrun).
  intros c n w Hc Hn Hsn Hw. rewrite elem_of_reverse in Hc.
  apply (IH c n w); [done..| |done].
  apply (all_sequential_child h this g c Hg Hs Hc); [|done].
  apply group_at_lookup. eauto.
Qed.

(** X7: when the group and every group below it are sequential groups, its
    tail count is zero or one. *)
Theorem sequential_tail_nodes_at_most_one (h : heap) (fuel : nat)
    (this : addr) (g : node) (v : Z) :
  h !! this = Some g → synth_ g = false → all_sequential h this →
  tail_nodes fuel h this = Ok v →
  v = 0%Z ∨ v = 1%Z.
Proof. intros. by eapply sequential_tail_nodes_bit. Qed.

Lemma sequential_tail_nodes_at_most_one_witness :
  0%Z = 0%Z ∨ 0%Z = 1%Z.
Proof.
  apply (sequential_tail_nodes_at_most_one (delete 4 sample_after_requests) 4 1
           (Node 1 false None 1 [12; 2] false 1 1) 0).
  - vm_compute. reflexivity.
  - reflexivity.
  - apply all_sequential_store. by_computation.
  - vm_compute. reflexivity.
Defined.

(** ** The deep child count *)

Lemma wrap_add z1 z2 : wrap (wrap z1 + wrap z2) = wrap (z1 + z2).
Proof. unfold wrap. by rewrite <- Zplus_mod. Qed.

Lemma count_groups_deep_walk (rec rec' : addr → result (Z * Z)) (h : heap)
    (l : list addr) :
  (∀ c p, c ∈ l → rec c = Ok p → rec' c = Ok (wrap p.1, wrap p.2)) →
  ∀ s k, walk_children rec h l = Ok (s, k) →
  ∀ a b,
    count_groups_deep rec' h l (wrap a) (wrap b) =
      Ok (wrap (a + s - kind_count h true l),
          wrap (b + k - kind_count h false l)).
Proof.
  induction l as [|c l IH]; intros Hrec s k Hwalk a b; simpl in Hwalk.
  { injection Hwalk as <- <-. simpl. unfold kind_count. simpl.
    do 2 f_equal; f_equal; lia. }
  apply bind_Ok in Hwalk as (n & Hn%load_Ok & Hwalk).
  apply bind_Ok in Hwalk as ([s1 k1] & Hhere & Hwalk).
  apply bind_Ok in Hwalk as ([s2 k2] & Hrest & [= <- <-]).
  simpl. rewrite (load_Some _ _ _ Hn). simpl.
  rewrite !kind_count_cons, Hn. simpl.
  specialize (IH ltac:(intros; eapply Hrec; eauto; set_solver) s2 k2 Hrest).
  destruct (synth_ n); simpl.
  - injection Hhere as <- <-. rewrite IH. do 2 f_equal; f_equal; lia.
  - apply bind_Ok in Hhere as ([s0 k0] & Hc & [= <- <-]).
    rewrite (Hrec c (s0, k0)) by (done || set_solver). simpl.
    rewrite !wrap_add, IH. do 2 f_equal; f_equal; lia.
Qed.

Lemma child_count_deep_walk (h : heap) :
  consistent h →
  ∀ fuel this p,
    count_descendants fuel h this = Ok p →
    child_count_deep fuel h this = Ok (wrap p.1, wrap p.2).
Proof.
  intros Hh. induction fuel as [|fuel IH]; intros this [s k] Hcount; [done|].
  simpl in Hcount. apply bind_Ok in Hcount as (g & Hg%load_Ok & Hwalk).
  simpl. rewrite (load_Some _ _ _ Hg). simpl.
  destruct (Hh _ _ Hg) as (_ & _ & -> & ->).
  rewrite (count_groups_deep_walk (count_descendants fuel h)
             (child_count_deep fuel h) h _ (λ c p _, IH c p) s k Hwalk).
  do 2 f_equal; f_equal; lia.
Qed.

Lemma walk_children_total (rec : addr → result (Z * Z)) (h : heap)
    (l : list addr) :
  (∀ c, c ∈ l → is_Some (h !! c)) →
  (∀ c, c ∈ l → ∃ p, rec c = Ok p) →
  ∃ p, walk_children rec h l = Ok p.
Proof.
  induction l as [|c l IH]; intros Hlive Hrec; simpl; [eauto|].
  destruct (Hlive c) as [n Hn]; [set_solver|]. rewrite (load_Some _ _ _ Hn).
  simpl.
  destruct IH as [t Ht];
    [intros; apply Hlive; set_solver|intros; apply Hrec; set_solver|].
  destruct (synth_ n); simpl.
  - rewrite Ht. simpl. eauto.
  - destruct (Hrec c) as [p Hp]; [set_solver|]. rewrite Hp. simpl.
    rewrite Ht. simpl. eauto.
Qed.

Lemma count_descendants_total (h : heap) (rank : addr → nat) :
  closed h → ranked h rank →
  ∀ fuel this, rank this < fuel → is_Some (h !! this) →
    ∃ p, count_descendants fuel h this = Ok p.
Proof.
  intros Hclosed Hranked.
  induction fuel as [|fuel IH]; intros this Hlt [g Hg]; [lia|].
  simpl. rewrite (load_Some _ _ _ Hg). simpl. apply walk_children_total.
  - intros c Hc. by eapply closed_child.
  - intros c Hc. apply IH; [|by eapply closed_child].
    pose proof (ranked_child _ _ _ _ _ Hranked Hg Hc). lia.
Qed.

(** X8: on a consistent store without cycles, [child_count_deep] returns the
    numbers of synths and of groups found by walking every child list below
    the group ([count_descendants]), as [std::size_t] values: the cached
    counters it adds up agree with the nodes that are there. *)
Theorem child_count_deep_counts (h : heap) (rank : addr → nat)
    (this : addr) (g : node) (fuel : nat) :
  consistent h → ranked h rank →
  h !! this = Some g → rank this < fuel →
  ∃ s k,
    count_descendants fuel h this = Ok (s, k) ∧
    child_count_deep fuel h this = Ok (wrap s, wrap k).
Proof.
  intros Hh Hranked Hg Hlt.
  destruct (count_descendants_total h rank (consistent_closed _ Hh) Hranked
              fuel this Hlt) as [[s k] Hcount]; [eauto|].
  exists s, k. split; [done|].
  by apply (child_count_deep_walk h Hh fuel this (s, k)).
Qed.

Lemma child_count_deep_counts_witness :
  ∃ s k,
    count_descendants 4 sample_heap 1 = Ok (s, k) ∧
    child_count_deep 4 sample_heap 1 = Ok (wrap s, wrap k).
Proof.
  apply (child_count_deep_counts sample_heap sample_rank 1
           (Node 1 false None 1 [10; 2] false 1 1) 4).
  - by_computation.
  - by_computation.
  - vm_compute. reflexivity.
  - vm_compute. lia.
Defined.

Example child_count_deep_sample :
  child_count_deep 4 sample_heap 1 = Ok (1, 2)%Z.
Proof. by vm_compute. Qed.

Lemma count_groups_deep_no_synth (rec : addr → result (Z * Z)) (h : heap)
    (l : list addr) :
  (∀ c, c ∈ l → ∃ n k, h !! c = Some n ∧ synth_ n = false ∧
                       rec c = Ok (0%Z, k)) →
  ∀ b, ∃ k, count_groups_deep rec h l 0 b = Ok (0%Z, k).
Proof.
  induction l as [|c l IH]; intros Hl b; simpl; [eauto|].
  destruct (Hl c) as (n & k & Hn & Hs & Hrec); [set_solver|].
  rewrite (load_Some _ _ _ Hn). simpl. rewrite Hs, Hrec. simpl.
  apply IH. intros. apply Hl. set_solver.
Qed.

Lemma child_count_deep_no_synth (h : heap) :
  consistent h →
  ∀ fuel this,
    has_synth_children fuel h this = Ok false →
    ∃ k, child_count_deep fuel h this = Ok (0%Z, k).
Proof.
  intros Hh. induction fuel as [|fuel IH]; intros this Hno; [done|].
  rewrite has_synth_children_unfold in Hno.
  apply bind_Ok in Hno as (g & Hg%load_Ok & Hscan).
  pose proof (scan_synths_false _ _ _ Hscan) as Hchildren.
  simpl. rewrite (load_Some _ _ _ Hg). simpl.
  destruct (Hh _ _ Hg) as (_ & _ & -> & _).
  rewrite kind_count_none.
  - apply count_groups_deep_no_synth. intros c Hc.
    destruct (Hchildren c Hc) as (n & Hn & Hs & Hrec).
    destruct (IH c Hrec) as [k Hk]. eauto 6.
  - intros d Hd. destruct (Hchildren d Hd) as (n & Hn & Hsn & _).
    rewrite Hn. simpl. by rewrite Hsn.
Qed.

(** X9: on a consistent store, when [has_synth_children] of a group returns
    false, [child_count_deep] of that group returns and reports zero synths. *)
Theorem no_synth_children_zero_deep_count (h : heap) (fuel : nat)
    (this : addr) :
  consistent h →
  has_synth_children fuel h this = Ok false →
  ∃ k, child_count_deep fuel h this = Ok (0%Z, k).
Proof. intros. by apply child_count_deep_no_synth. Qed.

Lemma no_synth_children_zero_deep_count_witness :
  ∃ k, child_count_deep 4 sample_without_synths 1 = Ok (0%Z, k).
Proof.
  apply (no_synth_children_zero_deep_count sample_without_synths 4 1).
  - by_computation.
  - vm_compute. reflexivity.
Defined.

(** ** Neighbours *)

Lemma successor_in_Some c (l : list addr) m :
  successor_in c l = Some m → ∃ l1 l2, l = l1 ++ c :: m :: l2 ∧ c ∉ l1.
Proof.
  induction l as [|x l IH]; simpl; [done|].
  destruct (decide (x = c)) as [->|Hne].
  - destruct l as [|y l]; simpl; [done|]. intros [= ->].
    exists [], l. split; [done|]. apply not_elem_of_nil.
  - intros (l1 & l2 & -> & Hc)%IH. exists (x :: l1), l2. split; [done|].
    set_solver.
Qed.

Lemma abstract_group_next_node_middle (h : heap) p g l1 l2 c :
  h !! p = Some g → child_nodes g = l1 ++ c :: l2 → c ∉ l1 →
  abstract_group_next_node p c h = Ok (head l2).
Proof.
  intros Hg Hl Hc. unfold abstract_group_next_node.
  rewrite (load_Some _ _ _ Hg). simpl.
  assert (has_child g c = true) as ->.
  { unfold has_child. rewrite Hl. apply bool_decide_eq_true. set_solver. }
  simpl. by rewrite Hl, successor_in_middle.
Qed.

Lemma abstract_group_previous_node_middle (h : heap) p g l1 l2 c :
  h !! p = Some g → child_nodes g = l1 ++ c :: l2 → c ∉ l2 →
  abstract_group_previous_node p c h = Ok (last l1).
Proof.
  intros Hg Hl Hc. unfold abstract_group_previous_node.
  rewrite (load_Some _ _ _ Hg). simpl.
  assert (has_child g c = true) as ->.
  { unfold has_child. rewrite Hl. apply bool_decide_eq_true. set_solver. }
  simpl. by rewrite Hl, predecessor_in_middle.
Qed.

(** X10: on a consistent store [next_node] and [previous_node] undo each
    other: the node that [next_node] returns has the starting node as its
    [previous_node], and the node that [previous_node] returns has the
    starting node as its [next_node]. *)
Theorem next_previous_inverse (h : heap) (this m : addr) :
  consistent h →
  (next_node this h = Ok (Some m) → previous_node m h = Ok (Some this)) ∧
  (previous_node this h = Ok (Some m) → next_node m h = Ok (Some this)).
Proof.
  intros Hh. split.
  - unfold next_node. intros (n & Hn%load_Ok & Hrest)%bind_Ok.
    apply bind_Ok in Hrest as (p & Hp & Hrest).
    unfold abstract_group_next_node in Hrest.
    apply bind_Ok in Hrest as (g & Hg%load_Ok & Hrest).
    apply bind_Ok in Hrest as ([] & _ & [= Hsucc]).
    apply successor_in_Some in Hsucc as (l1 & l2 & Hl & Hthis).
    pose proof (consistent_NoDup _ _ _ Hh Hg) as Hnd. rewrite Hl in Hnd.
    apply NoDup_app in Hnd as (_ & _ & Hnd).
    apply NoDup_cons in Hnd as [_ Hnd]. apply NoDup_cons in Hnd as [Hm _].
    destruct (consistent_child h p g m Hh Hg) as (nm & Hnm & Hpm);
      [rewrite Hl; set_solver|].
    unfold previous_node. rewrite (load_Some _ _ _ Hnm). simpl.
    rewrite Hpm. simpl.
    rewrite (abstract_group_previous_node_middle h p g (l1 ++ [this]) l2 m);
      [by rewrite last_snoc|done| |done].
    by rewrite <- app_assoc.
  - unfold previous_node. intros (n & Hn%load_Ok & Hrest)%bind_Ok.
    apply bind_Ok in Hrest as (p & Hp & Hrest).
    unfold abstract_group_previous_node in Hrest.
    apply bind_Ok in Hrest as (g & Hg%load_Ok & Hrest).
    apply bind_Ok in Hrest as ([] & _ & [= Hpred]).
    apply successor_in_Some in Hpred as (l1 & l2 & Hl & Hthis).
    assert (child_nodes g = reverse l2 ++ m :: this :: reverse l1) as Hl'.
    { rewrite <- (reverse_involutive (child_nodes g)), Hl.
      rewrite reverse_app, !reverse_cons, <- !app_assoc. done. }
    pose proof (consistent_NoDup _ _ _ Hh Hg) as Hnd. rewrite Hl' in Hnd.
    apply NoDup_app in Hnd as (_ & Hm & _).
    destruct (consistent_child h p g m Hh Hg) as (nm & Hnm & Hpm);
      [rewrite Hl'; set_solver|].
    unfold next_node. rewrite (load_Some _ _ _ Hnm). simpl.
    rewrite Hpm. simpl.
    rewrite (abstract_group_next_node_middle h p g (reverse l2)
               (this :: reverse l1) m); [done..|].
    intros Hin. apply (Hm m Hin). set_solver.
Qed.

Lemma next_previous_inverse_witness :
  (next_node 10 sample_heap = Ok (Some 2) →
   previous_node 2 sample_heap = Ok (Some 10)) ∧
  (previous_node 10 sample_heap = Ok (Some 2) →
   next_node 2 sample_heap = Ok (Some 10)).
Proof.
  apply (next_previous_inverse sample_heap 10 2). by_computation.
Defined.

Example next_node_sample : next_node 10 sample_heap = Ok (Some 2).
Proof. by vm_compute. Qed.

(** ** Detaching and attaching again *)

Lemma increment_decrement s g :
  in_size_t (child_synths_ g) → in_size_t (child_groups_ g) →
  increment_count s (decrement_count s g) = g.
Proof.
  intros Hs Hg. destruct g as [i sy pa uc cn ip cs cg]. simpl in *.
  destruct s; unfold decrement_count, increment_count,
    with_child_synths, with_child_groups; simpl; f_equal.
  - rewrite wrap_wrap_add. replace (cs - 1 + 1)%Z with cs by lia.
    by apply wrap_in_size_t.
  - rewrite wrap_wrap_add. replace (cg - 1 + 1)%Z with cg by lia.
    by apply wrap_in_size_t.
Qed.

(** X11: for a node whose parent is a live group with counters in range, and
    which somebody else holds too (its reference count is not one),
    [clear_parent] followed by [set_parent] to the former parent gives back
    the store it started from. *)
Theorem clear_parent_set_parent (h : heap) (this p : addr) (n g : node) :
  h !! this = Some n →
  parent_ n = Some p →
  h !! p = Some g →
  use_count_ n ≠ 1%Z →
  in_size_t (child_synths_ g) →
  in_size_t (child_groups_ g) →
  ∃ h1, clear_parent this h = Ok h1 ∧ set_parent this (Some p) h1 = Ok h.
Proof.
  intros Hn Hp Hg Hu Hcs Hcg.
  destruct (clear_parent_view this p h n Hn Hp (mk_is_Some _ _ Hg))
    as (h1 & Hclear & V1).
  exists h1. split; [done|].
  assert (∀ b, h1 !! b =
            (λ x, at_addr this released b
                    (at_addr this (with_parent None) b
                       (at_addr p (decrement_count (synth_ n)) b x)))
              <$> h !! b) as V1'.
  { intros b. rewrite V1. by rewrite decide_False by (intros [_ ?]; done). }
  set (n1 := at_addr this released this
               (at_addr this (with_parent None) this
                  (at_addr p (decrement_count (synth_ n)) this n))).
  assert (h1 !! this = Some n1) as Hn1 by by rewrite V1', Hn.
  assert (parent_ n1 = None) as Hp1
    by (subst n1; by rewrite !at_addr_eq).
  assert (synth_ n1 = synth_ n) as Hs1.
  { subst n1. rewrite !at_addr_eq. simpl. apply at_addr_synth.
    intros y. unfold decrement_count. by destruct (synth_ n). }
  assert (is_Some (h1 !! p)) as Hlive by (rewrite V1', Hg; eauto).
  destruct (set_parent_view this p h1 n1 Hn1 Hp1 Hlive) as (h2 & -> & V2).
  f_equal. apply map_eq. intros b. rewrite V2, V1', Hs1.
  destruct (h !! b) as [x|] eqn:Hx; [|done]. simpl. f_equal.
  clear Hn1 Hp1 Hs1 V1 V2 Hclear Hlive. clear n1.
  destruct (decide (b = this)) as [Hbt|Hbt], (decide (b = p)) as [Hbp|Hbp];
    subst; rewrite ?at_addr_eq, ?at_addr_ne by done.
  - assert (x = n) as -> by congruence. assert (g = n) as -> by congruence.
    destruct n as [i sy pa uc cn ip cs cg]. simpl in *. subst pa.
    destruct sy; unfold increment_count, decrement_count, referenced, released,
      with_parent, with_use_count, with_child_synths, with_child_groups; simpl;
      f_equal; try lia;
      rewrite wrap_wrap_add;
      [replace (cs - 1 + 1)%Z with cs by lia
      |replace (cg - 1 + 1)%Z with cg by lia]; by apply wrap_in_size_t.
  - assert (x = n) as -> by congruence.
    destruct n as [i sy pa uc cn ip cs cg]. simpl in *. subst pa.
    unfold referenced, released, with_parent, with_use_count. simpl.
    f_equal. lia.
  - assert (x = g) as -> by congruence. by apply increment_decrement.
  - done.
Qed.

Lemma clear_parent_set_parent_witness :
  ∃ h1, clear_parent 12 sample_after_requests = Ok h1 ∧
        set_parent 12 (Some 1) h1 = Ok sample_after_requests.
Proof.
  apply (clear_parent_set_parent sample_after_requests 12 1
           (Node 12 true (Some 1) 2 [] false 0 0)
           (Node 1 false None 1 [12; 2] false 1 1));
    try (by vm_compute); split; by vm_compute.
Defined.

(** X12: [clear_parent] of a node attached to another, live object succeeds:
    the parent's counter for the node's kind goes down by one modulo 2^64,
    the node loses its parent pointer and one reference, leaving the store
    when that was its last reference, and no other object and no child list
    changes. *)
Theorem clear_parent_attached (h : heap) (this p : addr) (n g : node) :
  h !! this = Some n →
  parent_ n = Some p →
  h !! p = Some g →
  this ≠ p →
  clear_parent this h =
    Ok (<[p := decrement_count (synth_ n) g]>
          (if decide (use_count_ n = 1%Z) then delete this h
           else <[this := detached_node n]> h)).
Proof.
  intros Hn Hp Hg Hne.
  destruct (clear_parent_view this p h n Hn Hp (mk_is_Some _ _ Hg))
    as (h1 & -> & V1).
  f_equal. apply map_eq. intros b. rewrite V1.
  destruct (decide (b = p)) as [->|Hbp].
  - rewrite lookup_insert_eq, decide_False by (intros [? _]; done).
    rewrite Hg. simpl. by rewrite !(at_addr_ne this), at_addr_eq by done.
  - rewrite lookup_insert_ne by done.
    destruct (decide (use_count_ n = 1%Z)) as [Hu|Hu].
    + rewrite lookup_delete. destruct (decide (this = b)) as [<-|Hbt].
      * by rewrite decide_True.
      * rewrite decide_False by (intros [? _]; done).
        destruct (h !! b); [|done]. simpl.
        by rewrite !(at_addr_ne this), at_addr_ne by done.
    + rewrite decide_False by (intros [_ ?]; done). rewrite lookup_insert.
      destruct (decide (this = b)) as [<-|Hbt].
      * rewrite Hn. simpl. by rewrite !at_addr_eq, at_addr_ne by done.
      * destruct (h !! b); [|done]. simpl.
        by rewrite !(at_addr_ne this), at_addr_ne by done.
Qed.

Lemma clear_parent_attached_witness :
  clear_parent 10 sample_heap =
    Ok (<[1 := Node 1 false None 1 [10; 2] false 0 1]> (delete 10 sample_heap)).
Proof.
  apply (clear_parent_attached sample_heap 10 1
           (Node 10 true (Some 1) 1 [] false 0 0)
           (Node 1 false None 1 [10; 2] false 1 1));
    by vm_compute.
Defined.

(** ** Clearing twice, and the empty group *)

Lemma free_children_returns_empty this (h h' : heap) :
  free_children this h = Ok h' →
  ∃ g', h' !! this = Some g' ∧ child_nodes g' = [] ∧
        child_synths_ g' = 0%Z ∧ child_groups_ g' = 0%Z.
Proof.
  unfold free_children, clear_and_dispose.
  intros (h1 & Hclear & Hrest)%bind_Ok.
  apply bind_Ok in Hclear as (g & _ & Hclear).
  apply bind_Ok in Hclear as (h0 & _ & Hreset).
  apply bind_Ok in Hrest as (g' & Hg'%load_Ok & Hrest).
  apply bind_Ok in Hrest as ([] & Hs%assert_Ok & Hrest).
  apply bind_Ok in Hrest as ([] & Hgr%assert_Ok & [= <-]).
  exists g'. split_and!; [done| |lia..].
  destruct (h0 !! this) as [g0|] eqn:Hg0.
  - rewrite (update_Some _ _ _ _ Hg0) in Hreset. injection Hreset as <-.
    rewrite lookup_insert_eq in Hg'. by injection Hg' as <-.
  - unfold update in Hreset. by rewrite Hg0 in Hreset.
Qed.

Lemma free_children_of_empty this (h : heap) g :
  h !! this = Some g → child_nodes g = [] →
  free_children this h =
    (if bool_decide (child_synths_ g = 0%Z ∧ child_groups_ g = 0%Z)
     then Ok h else Fail AssertionFailed).
Proof.
  intros Hg Hl. unfold free_children, clear_and_dispose.
  rewrite (load_Some _ _ _ Hg). simpl. rewrite Hl. simpl.
  rewrite (update_Some _ _ _ _ Hg). simpl.
  assert (with_child_nodes [] g = g) as -> by (destruct g; simpl in Hl; by subst).
  rewrite insert_id by done. rewrite (load_Some _ _ _ Hg). simpl.
  destruct (bool_decide (child_synths_ g = 0%Z ∧ child_groups_ g = 0%Z))
    eqn:Hb.
  - apply bool_decide_eq_true in Hb as [-> ->]. done.
  - apply bool_decide_eq_false in Hb.
    destruct (Z.eqb_spec (child_synths_ g) 0), (Z.eqb_spec (child_groups_ g) 0);
      simpl; try done.
    destruct Hb. done.
Qed.

(** X13: [free_children] on a group without children changes nothing when
    both cached counters are zero, and fails in an assertion otherwise. *)
Theorem free_children_empty_group (h : heap) (this : addr) (g : node) :
  h !! this = Some g → child_nodes g = [] →
  free_children this h =
    (if bool_decide (child_synths_ g = 0%Z ∧ child_groups_ g = 0%Z)
     then Ok h else Fail AssertionFailed).
Proof. intros. by apply free_children_of_empty. Qed.

Lemma free_children_empty_group_witness :
  free_children 3 sample_heap = Ok sample_heap.
Proof.
  apply (free_children_empty_group sample_heap 3
           (Node 3 false (Some 2) 1 [] false 0 0)); by vm_compute.
Defined.

(** X14: [free_children] is idempotent: whenever it returns, a second call on
    the same group returns the same store. *)
Theorem free_children_idempotent (h h' : heap) (this : addr) :
  free_children this h = Ok h' →
  free_children this h' = Ok h'.
Proof.
  intros (g' & Hg' & Hl & Hs & Hgr)%free_children_returns_empty.
  rewrite (free_children_of_empty this h' g' Hg' Hl).
  by rewrite bool_decide_eq_true_2.
Qed.

Lemma free_children_idempotent_witness :
  free_children 2 (<[2 := Node 2 false (Some 1) 1 [] false 0 0]>
                     (delete 3 sample_heap)) =
    Ok (<[2 := Node 2 false (Some 1) 1 [] false 0 0]> (delete 3 sample_heap)).
Proof.
  apply (free_children_idempotent sample_heap _ 2). by vm_compute.
Defined.

(** X15: on a consistent store, and for a child list shorter than 2^64,
    [empty()] holds exactly when [child_count()] is zero. *)
Theorem empty_iff_child_count_zero (h : heap) (this : addr) (g : node) :
  consistent h → h !! this = Some g →
  (Z.of_nat (length (child_nodes g)) < size_t_modulus)%Z →
  empty_group g = true ↔ child_count g = 0%Z.
Proof.
  intros Hh Hg Hlen. rewrite (consistent_child_count h this g Hh Hg).
  unfold list_size. rewrite wrap_in_size_t by (unfold in_size_t; lia).
  unfold empty_group. destruct (child_nodes g); simpl; split; try done; lia.
Qed.

Lemma empty_iff_child_count_zero_witness :
  empty_group (Node 1 false None 1 [10; 2] false 1 1) = true ↔
  child_count (Node 1 false None 1 [10; 2] false 1 1) = 0%Z.
Proof.
  apply (empty_iff_child_count_zero sample_heap 1).
  - by_computation.
  - vm_compute. reflexivity.
  - vm_compute. reflexivity.
Defined.

(** ** A new group in the store *)

(** X16: putting a newly constructed group at an unused address of a
    consistent store gives a consistent store, in which the new group is
    empty, has a child count of zero and no parent. *)
Theorem new_group_consistent (h : heap) (a : addr) (id : Z)
    (is_parallel : bool) (handles : Z) :
  consistent h → h !! a = None →
  consistent (<[a := new_group id is_parallel handles]> h) ∧
  empty_group (new_group id is_parallel handles) = true ∧
  child_count (new_group id is_parallel handles) = 0%Z ∧
  parent_ (new_group id is_parallel handles) = None.
Proof.
  intros Hh Ha. split; [|done].
  assert (∀ b x c, h !! b = Some x → c ∈ child_nodes x → c ≠ a) as Hfresh.
  { intros b x c Hx Hc ->.
    destruct (consistent_child _ _ _ _ Hh Hx Hc) as (n & Hn & _). congruence. }
  intros b x. rewrite lookup_insert.
  destruct (decide (a = b)) as [<-|Hne].
  - intros [= <-]. unfold node_consistent. simpl.
    split_and!; [constructor|constructor|done|done].
  - intros Hx. destruct (Hh _ _ Hx) as (Hch & Hnd & Hcs & Hcg).
    unfold node_consistent. split_and!; [|done| |].
    + apply Forall_forall. intros c Hc.
      rewrite lookup_insert_ne by (symmetry; by eapply Hfresh).
      by eapply Forall_forall in Hch.
    + rewrite Hcs. f_equal. symmetry. apply kind_count_ext. intros c Hc.
      by rewrite lookup_insert_ne by (symmetry; by eapply Hfresh).
    + rewrite Hcg. f_equal. symmetry. apply kind_count_ext. intros c Hc.
      by rewrite lookup_insert_ne by (symmetry; by eapply Hfresh).
Qed.

Lemma new_group_consistent_witness :
  consistent (<[7 := new_group 7 true 0]> sample_heap) ∧
  empty_group (new_group 7 true 0) = true ∧
  child_count (new_group 7 true 0) = 0%Z ∧
  parent_ (new_group 7 true 0) = None.
Proof.
  apply (new_group_consistent sample_heap 7 7 true 0).
  - by_computation.
  - vm_compute. reflexivity.
Defined.

(** ** The deep child count after [free_synths_deep] *)

Lemma walk_children_cleaned (rec rec' : addr → result (Z * Z))
    (h h' : heap) (l : list addr) :
  cleaning h h' →
  (∀ c r, c ∈ l → group_at h c → rec c = Ok r → rec' c = Ok (0%Z, r.2)) →
  ∀ p, walk_children rec h l = Ok p →
       walk_children rec' h' (groups_of h l) = Ok (0%Z, p.2).
Proof.
  intros Hc. induction l as [|c l IH]; intros Hrec p Hwalk; simpl in Hwalk.
  { by injection Hwalk as <-. }
  apply bind_Ok in Hwalk as (n & Hn%load_Ok & Hwalk).
  apply bind_Ok in Hwalk as ([s1 k1] & Hhere & Hwalk).
  apply bind_Ok in Hwalk as ([s2 k2] & Hrest & [= <-]).
  specialize (IH ltac:(intros; eapply Hrec; eauto; set_solver) _ Hrest).
  simpl in IH. unfold groups_of in *. destruct (synth_ n) eqn:Hs.
  - injection Hhere as <- <-. rewrite filter_cons_False; [done|].
    unfold group_at. rewrite Hn. simpl. congruence.
  - apply bind_Ok in Hhere as ([s0 k0] & Hrc & [= <- <-]).
    assert (group_at h c) as Hg by (apply group_at_lookup; eauto).
    rewrite filter_cons_True by done. simpl.
    assert (group_at h' c) as (n' & Hn' & Hs')%group_at_lookup
      by by apply (cleaning_group_at h h').
    rewrite (load_Some _ _ _ Hn'). simpl. rewrite Hs'.
    rewrite (Hrec c (s0, k0)) by (done || set_solver). simpl.
    rewrite IH. simpl. done.
Qed.

Lemma count_descendants_cleaned (h h' : heap) :
  cleaning h h' →
  ∀ fuel this p,
    (∀ a, subgroup h this a → cleaned h h' a) →
    count_descendants fuel h this = Ok p →
    count_descendants fuel h' this = Ok (0%Z, p.2).
Proof.
  intros Hc. induction fuel as [|fuel IH]; intros this p Hsub Hcount; [done|].
  simpl in Hcount. apply bind_Ok in Hcount as (g & Hg%load_Ok & Hwalk).
  destruct (Hsub this (subgroup_self _ _)) as (g0 & Hg0 & Hs & Hg' & _).
  assert (g0 = g) as -> by congruence.
  simpl. rewrite (load_Some _ _ _ Hg'). simpl.
  apply (walk_children_cleaned (count_descendants fuel h)); [done| |done].
  intros c r Hin Hgc Hr. apply (IH c r); [|done].
  intros a Ha. apply Hsub. by eapply subgroup_below.
Qed.

(** X17: on a consistent store without cycles, [free_synths_deep] brings the
    deep synth count of the group to zero and leaves its deep group count as
    it was: if [child_count_deep] returned [(s, k)] before the call, it
    returns [(0, k)] after it. *)
Theorem free_synths_deep_then_child_count_deep (h h' : heap)
    (rank : addr → nat) (this : addr) (g : node) (fuel : nat) (s k : Z) :
  consistent h → ranked h rank →
  h !! this = Some g → synth_ g = false → rank this < fuel →
  free_synths_deep fuel this h = Ok h' →
  child_count_deep fuel h this = Ok (s, k) →
  child_count_deep fuel h' this = Ok (0%Z, k).
Proof.
  intros Hh Hranked Hg Hs Hlt Hrun Hdeep.
  destruct (free_synths_deep_returned fuel this h g h' Hh Hg Hs Hrun)
    as (Hh' & Hc & Hsub).
  destruct (count_descendants_total h rank (consistent_closed _ Hh) Hranked
              fuel this Hlt) as [[s0 k0] Hcount]; [eauto|].
  rewrite (child_count_deep_walk h Hh fuel this _ Hcount) in Hdeep.
  injection Hdeep as <- <-.
  pose proof (count_descendants_cleaned h h' Hc fuel this _ Hsub Hcount)
    as Hcount'.
  by rewrite (child_count_deep_walk h' Hh' fuel this _ Hcount').
Qed.

Lemma free_synths_deep_then_child_count_deep_witness :
  child_count_deep 4 sample_without_synths 1 = Ok (0, 2)%Z.
Proof.
  apply (free_synths_deep_then_child_count_deep sample_after_requests
           sample_without_synths sample_rank 1
           (Node 1 false None 1 [12; 2] false 1 1) 4 1 2).
  - by_computation.
  - by_computation.
  - vm_compute. reflexivity.
  - reflexivity.
  - vm_compute. lia.
  - vm_compute. reflexivity.
  - vm_compute. reflexivity.
Defined.
